(** * ghreporting: the fetch-and-aggregate pipeline

    A shallow embedding of [internal/models], [internal/client] and
    [internal/reporter]: the data model, the author key, the branch
    selector, the repository processor, the worker pool of
    [GenerateReport] and the aggregation of [generateSummary]. *)

From stdpp Require Import gmap strings list fin_maps.
From Stdlib Require Import ZArith Lia Ascii.

(** ** Go's [int]

    [int] is taken as the 64-bit signed integer of the usual targets; values
    are carried as [Z] and every addition wraps around explicitly. *)

Definition int_bits : Z := 64.
Definition int_modulus : Z := 2 ^ int_bits.
Definition int_half : Z := 2 ^ (int_bits - 1).

Definition wrap (z : Z) : Z := ((z + int_half) mod int_modulus - int_half)%Z.

(** [a + b] and [a++] on [int]. *)
Definition int_add (a b : Z) : Z := wrap (a + b).
Definition int_incr (a : Z) : Z := int_add a 1.

(** ** internal/models *)

Module Author.
Record t := mk { Name : string; Email : string; Login : string }.
End Author.

Module CommitStats.
Record t := mk { Additions : Z; Deletions : Z; Total : Z }.
End CommitStats.

Module Commit.
(** [Date] is a [time.Time]; it is carried as seconds since the epoch. *)
Record t := mk {
  SHA : string;
  Message : string;
  Author : Author.t;
  Date : Z;
  Stats : CommitStats.t
}.
End Commit.

Module Branch.
Record t := mk { Name : string; SHA : string; Commits : list Commit.t }.
End Branch.

Module Repository.
Record t := mk {
  Name : string;
  FullName : string;
  URL : string;
  DefaultBranch : string;
  Branches : list Branch.t
}.
End Repository.

Module RepositoryStats.
Record t := mk { Commits : Z; Additions : Z; Deletions : Z }.
(** The zero value, read from a map at a missing key. *)
Definition zero : t := mk 0 0 0.
End RepositoryStats.

Module ContributorStats.
Record t := mk {
  Name : string;
  Email : string;
  Login : string;
  TotalCommits : Z;
  TotalAdditions : Z;
  TotalDeletions : Z;
  Repositories : gmap string RepositoryStats.t
}.
End ContributorStats.

#[global] Instance author_eq_dec : EqDecision Author.t.
Proof. solve_decision. Defined.
#[global] Instance commit_stats_eq_dec : EqDecision CommitStats.t.
Proof. solve_decision. Defined.
#[global] Instance commit_eq_dec : EqDecision Commit.t.
Proof. solve_decision. Defined.
#[global] Instance branch_eq_dec : EqDecision Branch.t.
Proof. solve_decision. Defined.
#[global] Instance repository_eq_dec : EqDecision Repository.t.
Proof. solve_decision. Defined.

(** ** internal/reporter: author key *)

(** [getAuthorKey]: login first, then email, then name. *)
Definition getAuthorKey (author : Author.t) : string :=
  if negb (String.eqb (Author.Login author) "") then Author.Login author
  else if negb (String.eqb (Author.Email author) "") then Author.Email author
  else Author.Name author.

(** ** internal/reporter: branch selection *)

(** The state threaded through [selectBranchesToProcess]: the slice
    [selected] and the map [branchMap]. *)
Definition selection : Type := list Branch.t * gmap string bool.

(** Reading [branchMap[k]]: a missing key reads as [false]. *)
Definition branchMap_get (branchMap : gmap string bool) (k : string) : bool :=
  default false (branchMap !! k).

(** The inner loop, used twice in the source:
    [for _, branch := range branches { if branch.Name == name { append; mark; break } }]. *)
Fixpoint appendFirstNamed (name : string) (branches : list Branch.t)
    (st : selection) : selection :=
  match branches with
  | [] => st
  | branch :: rest =>
      if String.eqb (Branch.Name branch) name
      then (st.1 ++ [branch], <[Branch.Name branch := true]> st.2)
      else appendFirstNamed name rest st
  end.

Definition importantBranches : list string :=
  ["main"; "master"; "develop"; "dev"; "staging"; "production"].

Definition selectBranchesToProcess (branches : list Branch.t)
    (defaultBranch : string) : list Branch.t :=
  let st := appendFirstNamed defaultBranch branches ([], ∅) in
  let st :=
    foldl (fun st importantBranch =>
             if negb (branchMap_get st.2 importantBranch)
             then appendFirstNamed importantBranch branches st
             else st)
          st importantBranches in
  st.1.

(** The selection policy as the design states it: the first branch named
    like the default, then, along the priority list, the first branch of
    each name not yet among the selected ones. *)
Definition firstNamed (name : string) (branches : list Branch.t) : option Branch.t :=
  find (fun b => String.eqb (Branch.Name b) name) branches.

Definition select_policy (branches : list Branch.t) (defaultBranch : string)
    : list Branch.t :=
  foldl (fun out name =>
           if decide (name ∈ Branch.Name <$> out) then out
           else out ++ option_list (firstNamed name branches))
        (option_list (firstNamed defaultBranch branches))
        importantBranches.

(** [branchMap] marks exactly the names of the selected branches. *)
Definition marks (st : selection) : Prop :=
  forall k, branchMap_get st.2 k = true <-> k ∈ Branch.Name <$> st.1.

(** A branch as [ListBranches] hands it over: no commits attached yet. *)
Definition named (name : string) (sha : string) : Branch.t := Branch.mk name sha [].

(** ** internal/reporter: aggregation *)

(** The entry created when an author key is seen for the first time. *)
Definition newContributor (author : Author.t) : ContributorStats.t :=
  ContributorStats.mk (Author.Name author) (Author.Email author)
    (Author.Login author) 0 0 0 ∅.

(** The body of the innermost loop of [generateSummary]. The [Repositories]
    map of [stats] is the very map of the entry read from [summary]; the
    entry is stored back under the same key at the end of the body and no
    two entries share a map, so the update by value is what the code does. *)
Definition addCommit (fullName : string)
    (summary : gmap string ContributorStats.t) (commit : Commit.t)
    : gmap string ContributorStats.t :=
  let authorKey := getAuthorKey (Commit.Author commit) in
  let stats :=
    match summary !! authorKey with
    | Some stats => stats
    | None => newContributor (Commit.Author commit)
    end in
  let additions := CommitStats.Additions (Commit.Stats commit) in
  let deletions := CommitStats.Deletions (Commit.Stats commit) in
  let repoStats :=
    default RepositoryStats.zero (ContributorStats.Repositories stats !! fullName) in
  let repoStats :=
    RepositoryStats.mk
      (int_incr (RepositoryStats.Commits repoStats))
      (int_add (RepositoryStats.Additions repoStats) additions)
      (int_add (RepositoryStats.Deletions repoStats) deletions) in
  <[authorKey :=
      ContributorStats.mk
        (ContributorStats.Name stats) (ContributorStats.Email stats)
        (ContributorStats.Login stats)
        (int_incr (ContributorStats.TotalCommits stats))
        (int_add (ContributorStats.TotalAdditions stats) additions)
        (int_add (ContributorStats.TotalDeletions stats) deletions)
        (<[fullName := repoStats]> (ContributorStats.Repositories stats))]>
    summary.

Definition addBranch (fullName : string)
    (summary : gmap string ContributorStats.t) (branch : Branch.t) :=
  foldl (addCommit fullName) summary (Branch.Commits branch).

Definition addRepository (summary : gmap string ContributorStats.t)
    (repo : Repository.t) :=
  foldl (addBranch (Repository.FullName repo)) summary (Repository.Branches repo).

Definition generateSummary (repos : list Repository.t)
    : gmap string ContributorStats.t :=
  foldl addRepository ∅ repos.

(** The order in which [generateSummary] visits the commits, each with the
    full name of its repository. *)
Definition traversal (repos : list Repository.t) : list (string * Commit.t) :=
  repo ← repos;
  branch ← Repository.Branches repo;
  commit ← Branch.Commits branch;
  [(Repository.FullName repo, commit)].

(** A sum over the values of a [Repositories] map, computed on [int]. *)
Definition sumOver (field : RepositoryStats.t -> Z)
    (repositories : gmap string RepositoryStats.t) : Z :=
  map_fold (fun _ repoStats acc => int_add acc (field repoStats)) 0%Z repositories.

(** What is left of an entry once the seeded author fields are dropped,
    and the seeded fields alone. *)
Definition totals (stats : ContributorStats.t)
    : Z * Z * Z * gmap string RepositoryStats.t :=
  (ContributorStats.TotalCommits stats, ContributorStats.TotalAdditions stats,
   ContributorStats.TotalDeletions stats, ContributorStats.Repositories stats).

Definition seed (stats : ContributorStats.t) : Author.t :=
  Author.mk (ContributorStats.Name stats) (ContributorStats.Email stats)
    (ContributorStats.Login stats).

(** ** Errors *)

(** Go [error] values: an error handed back by the remote provider, or one
    built by [fmt.Errorf] from a format and its string arguments, the last
    form with the error wrapped by [%w]. *)
Inductive error :=
  | ProviderError (msg : string)
  | Errorf (format : string) (args : list string)
  | ErrorfW (format : string) (args : list string) (wrapped : error).

(** ** strings.Split with a one-byte separator *)

Fixpoint strings_Split (s : string) (sep : Ascii.ascii) : list string :=
  match s with
  | EmptyString => [EmptyString]
  | String c rest =>
      let parts := strings_Split rest sep in
      if Ascii.eqb c sep then EmptyString :: parts
      else match parts with
           | p :: ps => String c p :: ps
           | [] => [String c EmptyString]
           end
  end.

(** strings.Count for a one-byte separator. *)
Fixpoint strings_Count (s : string) (sep : Ascii.ascii) : nat :=
  match s with
  | EmptyString => 0
  | String c rest => (if Ascii.eqb c sep then 1 else 0) + strings_Count rest sep
  end.

(** ** internal/reporter: the repository processor *)

(** The two calls [processRepository] makes on its [client]. A Go call
    returns a value and an error side by side. *)
Record GitHubClient := {
  ListBranches : string -> string -> list Branch.t * option error;
  ListCommits : string -> string -> string -> Z -> Z -> list Commit.t * option error
}.

(** What a run leaves behind: its log lines and its calls on the client. *)
Inductive event :=
  | LogProcessing (fullName : string)
  | CallListBranches (owner repoName : string)
  | CallListCommits (owner repoName branch : string) (since until : Z)
  | LogWarning (fullName branch : string) (err : error)
  | LogBranch (branch : string) (commits : nat).

Definition withCommits (branch : Branch.t) (commits : list Commit.t) : Branch.t :=
  Branch.mk (Branch.Name branch) (Branch.SHA branch) commits.

Definition withBranches (repo : Repository.t) (branches : list Branch.t)
    : Repository.t :=
  Repository.mk (Repository.Name repo) (Repository.FullName repo)
    (Repository.URL repo) (Repository.DefaultBranch repo) branches.

(** The body of the loop over [branchesToProcess]. *)
Definition processBranch (client : GitHubClient) (fullName owner repoName : string)
    (since until : Z) (st : list event * list Branch.t) (branch : Branch.t)
    : list event * list Branch.t :=
  let '(commits, err) :=
    ListCommits client owner repoName (Branch.Name branch) since until in
  let tr := st.1 ++ [CallListCommits owner repoName (Branch.Name branch) since until] in
  match err with
  | Some err => (tr ++ [LogWarning fullName (Branch.Name branch) err], st.2)
  | None =>
      (tr ++ [LogBranch (Branch.Name branch) (length commits)],
       st.2 ++ [withCommits branch commits])
  end.

Definition processRepository (client : GitHubClient) (repo : Repository.t)
    (since until : Z) : list event * (Repository.t * option error) :=
  let tr := [LogProcessing (Repository.FullName repo)] in
  match strings_Split (Repository.FullName repo) "/"%char with
  | [owner; repoName] =>
      let '(branches, err) := ListBranches client owner repoName in
      let tr := tr ++ [CallListBranches owner repoName] in
      match err with
      | Some err => (tr, (repo, Some err))
      | None =>
          let branchesToProcess :=
            selectBranchesToProcess branches (Repository.DefaultBranch repo) in
          let '(tr, processedBranches) :=
            foldl (processBranch client (Repository.FullName repo) owner repoName
                     since until)
                  (tr, []) branchesToProcess in
          (tr, (withBranches repo processedBranches, None))
      end
  | _ =>
      (tr, (repo, Some (Errorf "invalid repository name format: %s"
                          [Repository.FullName repo])))
  end.

(** What the loop over the selected branches comes to, branch by branch:
    the branch with its commits when the fetch succeeded, the warning when
    it failed, and the events either way. *)
Definition fetched (client : GitHubClient) (owner repoName : string)
    (since until : Z) (branch : Branch.t) : option Branch.t :=
  match ListCommits client owner repoName (Branch.Name branch) since until with
  | (commits, None) => Some (withCommits branch commits)
  | (_, Some _) => None
  end.


Definition branchEvents (client : GitHubClient) (fullName owner repoName : string)
    (since until : Z) (branch : Branch.t) : list event :=
  match ListCommits client owner repoName (Branch.Name branch) since until with
  | (commits, None) =>
      [CallListCommits owner repoName (Branch.Name branch) since until;
       LogBranch (Branch.Name branch) (length commits)]
  | (_, Some err) =>
      [CallListCommits owner repoName (Branch.Name branch) since until;
       LogWarning fullName (Branch.Name branch) err]
  end.


(** The calls of a run on the client, as pairs of owner and short name. *)
Definition calls (tr : list event) : list (string * string) :=
  omap (fun e => match e with
                 | CallListBranches owner repoName => Some (owner, repoName)
                 | CallListCommits owner repoName _ _ _ => Some (owner, repoName)
                 | _ => None
                 end) tr.

(** strings.Join with a one-byte separator. *)
Fixpoint strings_Join (parts : list string) (sep : Ascii.ascii) : string :=
  match parts with
  | [] => EmptyString
  | [p] => p
  | p :: ps => p +:+ String sep (strings_Join ps sep)
  end.

(** ** internal/client: ListCommits over the go-github binding *)

(** The part of go-github that [ListCommits] touches. Every field of the
    binding is a pointer; its [Get...] accessors return the zero value on a
    nil pointer, which is what the accessors below do on [None]. *)
Module github.
Record CommitStats := {
  Additions : option Z; Deletions : option Z; Total : option Z
}.
Record CommitAuthor := {
  Name : option string; Email : option string; Date : option Z
}.
Record GitCommit := { Message : option string; Author : option CommitAuthor }.
Record User := { Login : option string }.
Record RepositoryCommit := {
  SHA : option string;
  Commit : option GitCommit;
  RCAuthor : option User;
  Stats : option CommitStats
}.
Record CommitsListOptions := {
  OptSHA : string; Since : Z; Until : Z; Page : Z; PerPage : Z
}.
Record Response := { NextPage : Z }.

Definition GetSHA (c : RepositoryCommit) : string := default ""%string (SHA c).
Definition GetMessage (c : RepositoryCommit) : string :=
  default ""%string (Commit c ≫= Message).
Definition GetAuthorName (c : RepositoryCommit) : string :=
  default ""%string ((Commit c ≫= Author) ≫= Name).
Definition GetAuthorEmail (c : RepositoryCommit) : string :=
  default ""%string ((Commit c ≫= Author) ≫= Email).
Definition GetAuthorDate (c : RepositoryCommit) : Z :=
  default 0%Z ((Commit c ≫= Author) ≫= Date).
Definition GetAdditions (c : RepositoryCommit) : Z :=
  default 0%Z (Stats c ≫= Additions).
Definition GetDeletions (c : RepositoryCommit) : Z :=
  default 0%Z (Stats c ≫= Deletions).
Definition GetTotal (c : RepositoryCommit) : Z :=
  default 0%Z (Stats c ≫= Total).

(** The two services of [client.Repositories] used by [ListCommits]. *)
Record Client := {
  Repositories_ListCommits :
    string -> string -> CommitsListOptions ->
    (list RepositoryCommit * Response) + error;
  Repositories_GetCommit :
    string -> string -> string -> RepositoryCommit + error
}.
End github.

Module client.
Definition withPage (opt : github.CommitsListOptions) (page : Z) :=
  {| github.OptSHA := github.OptSHA opt; github.Since := github.Since opt;
     github.Until := github.Until opt; github.Page := page;
     github.PerPage := github.PerPage opt |}.

(** The pagination loop. It runs for as long as the provider names a next
    page, so the model takes fuel: [None] is a run that has not finished
    within it. *)
Fixpoint listPages (fuel : nat) (gc : github.Client) (owner repo branch : string)
    (opt : github.CommitsListOptions) (allCommits : list github.RepositoryCommit)
    : option (list github.RepositoryCommit + error) :=
  match fuel with
  | O => None
  | S fuel =>
      match github.Repositories_ListCommits gc owner repo opt with
      | inr err =>
          Some (inr (ErrorfW "failed to list commits for %s/%s@%s: %w"
                       [owner; repo; branch] err))
      | inl (commits, resp) =>
          let allCommits := allCommits ++ commits in
          if Z.eqb (github.NextPage resp) 0 then Some (inl allCommits)
          else listPages fuel gc owner repo branch
                 (withPage opt (github.NextPage resp)) allCommits
      end
  end.

(** The body of the second loop: [None] is the [continue] taken when the
    detailed commit cannot be fetched. *)
Definition convertCommit (gc : github.Client) (owner repo : string)
    (commit : github.RepositoryCommit) : option Commit.t :=
  match github.Repositories_GetCommit gc owner repo (github.GetSHA commit) with
  | inr _ => None
  | inl detailedCommit =>
      let author :=
        Author.mk (github.GetAuthorName commit) (github.GetAuthorEmail commit)
          (match github.RCAuthor commit with
           | Some user => default ""%string (github.Login user)
           | None => ""%string
           end) in
      Some (Commit.mk (github.GetSHA commit) (github.GetMessage commit) author
              (github.GetAuthorDate commit)
              (CommitStats.mk (github.GetAdditions detailedCommit)
                 (github.GetDeletions detailedCommit)
                 (github.GetTotal detailedCommit)))
  end.

Definition ListCommits (fuel : nat) (gc : github.Client)
    (owner repo branch : string) (since until : Z)
    : option (list Commit.t * option error) :=
  let opt := {| github.OptSHA := branch; github.Since := since;
                github.Until := until; github.Page := 0; github.PerPage := 100 |} in
  match listPages fuel gc owner repo branch opt [] with
  | None => None
  | Some (inr err) => Some ([], Some err)
  | Some (inl allCommits) =>
      Some (omap (convertCommit gc owner repo) allCommits, None)
  end.
End client.

(** ** internal/client: the listings of repositories and branches *)

(** The part of go-github behind [ListRepositories] and [ListBranches],
    with the same convention for nil pointers as above. *)
Module github_listing.
Record ListOptions := { Page : Z; PerPage : Z }.
Record Repository := {
  Name : option string;
  FullName : option string;
  HTMLURL : option string;
  DefaultBranch : option string;
  Archived : option bool
}.
Record Commit := { SHA : option string }.
Record Branch := { BranchName : option string; BranchCommit : option Commit }.

Definition GetName (r : Repository) : string := default ""%string (Name r).
Definition GetFullName (r : Repository) : string := default ""%string (FullName r).
Definition GetHTMLURL (r : Repository) : string := default ""%string (HTMLURL r).
Definition GetDefaultBranch (r : Repository) : string :=
  default ""%string (DefaultBranch r).
Definition GetArchived (r : Repository) : bool := default false (Archived r).
Definition GetBranchName (b : Branch) : string := default ""%string (BranchName b).
Definition GetCommitSHA (b : Branch) : string :=
  default ""%string (BranchCommit b ≫= SHA).

(** The three listing services of [client.Repositories]. *)
Record Client := {
  Repositories_ListByOrg :
    string -> ListOptions -> (list Repository * github.Response) + error;
  Repositories_List :
    string -> ListOptions -> (list Repository * github.Response) + error;
  Repositories_ListBranches :
    string -> string -> ListOptions -> (list Branch * github.Response) + error
}.
End github_listing.

(** The listing functions of [GitHubClient]. Their loops run for as long as
    the provider names a next page and take fuel like [client.listPages];
    the log line of the fallback is left out. *)
Module listing.
Definition withPage (opt : github_listing.ListOptions) (page : Z) :=
  {| github_listing.Page := page;
     github_listing.PerPage := github_listing.PerPage opt |}.

Definition firstPage : github_listing.ListOptions :=
  {| github_listing.Page := 0; github_listing.PerPage := 100 |}.

Definition convertRepositories (repos : list github_listing.Repository)
    : list Repository.t :=
  omap (fun repo =>
          if github_listing.GetArchived repo then None
          else Some (Repository.mk (github_listing.GetName repo)
                       (github_listing.GetFullName repo)
                       (github_listing.GetHTMLURL repo)
                       (github_listing.GetDefaultBranch repo) []))
       repos.





(** The loop of [ListBranches]. *)
Fixpoint branchPages (fuel : nat) (gc : github_listing.Client) (owner repo : string)
    (opt : github_listing.ListOptions)
    (allBranches : list github_listing.Branch)
    : option (list github_listing.Branch + error) :=
  match fuel with
  | O => None
  | S fuel =>
      match github_listing.Repositories_ListBranches gc owner repo opt with
      | inr err =>
          Some (inr (ErrorfW "failed to list branches for %s/%s: %w"
                       [owner; repo] err))
      | inl (branches, resp) =>
          let allBranches := allBranches ++ branches in
          if Z.eqb (github.NextPage resp) 0 then Some (inl allBranches)
          else branchPages fuel gc owner repo
                 (withPage opt (github.NextPage resp)) allBranches
      end
  end.

Definition ListBranches (fuel : nat) (gc : github_listing.Client)
    (owner repo : string) : option (list Branch.t * option error) :=
  match branchPages fuel gc owner repo firstPage [] with
  | None => None
  | Some (inr err) => Some ([], Some err)
  | Some (inl allBranches) =>
      Some ((fun branch =>
               Branch.mk (github_listing.GetBranchName branch)
                 (github_listing.GetCommitSHA branch) []) <$> allBranches,
            None)
  end.
End listing.

(** The commits whose detailed fetch succeeds. *)
Definition detailed (gc : github.Client) (owner repo : string)
    (commit : github.RepositoryCommit) : Prop :=
  is_Some (match github.Repositories_GetCommit gc owner repo (github.GetSHA commit)
           with inl d => Some d | inr _ => None end).

(** A provider of commits that serves the given pages: the request for
    page [i] returns the [i]-th page and names page [i + 1] as the next one
    if there is one, page 0 if not; the detailed commit of a hash is a
    commit of that hash without statistics. *)
Definition pagedProvider (pages : list (list github.RepositoryCommit))
    : github.Client := {|
  github.Repositories_ListCommits := fun _ _ opt =>
    match pages !! Z.to_nat (github.Page opt) with
    | Some page =>
        inl (page,
             {| github.NextPage :=
                  if decide (Z.to_nat (github.Page opt) + 1 < length pages)
                  then (github.Page opt + 1)%Z else 0%Z |})
    | None => inr (ProviderError "404")
    end;
  github.Repositories_GetCommit := fun _ _ sha =>
    inl {| github.SHA := Some sha; github.Commit := None;
           github.RCAuthor := None; github.Stats := None |}
|}.

(** ** internal/reporter: the worker pool of GenerateReport

    The goroutines of [GenerateReport] as a transition system. A state holds
    the three buffered channels, the program point of every goroutine and the
    locals of the collecting loop; a step is one action of one goroutine, so
    the runs of the system are the interleavings of the Go program. *)

(** A worker of [processRepositoryWorker]: receiving from [reposChan],
    about to call [processRepository], about to send on one of the two
    result channels, or returned (after [wg.Done]). *)
Inductive worker :=
  | WReceive
  | WProcess (repo : Repository.t)
  | WSendError (err : error)
  | WSendResult (processedRepo : Repository.t)
  | WDone.

(** The goroutine that waits for the workers and closes the result
    channels: before [wg.Wait] returns, between the two [close] calls, after
    both. *)
Inductive closer := CWait | CCloseErrors | CDone.

Record state := mkState {
  (* the feeding goroutine: what is left of [range repos] *)
  toSend : list Repository.t;
  reposChan : list Repository.t;
  reposClosed : bool;
  workers : list worker;
  wg : nat;
  closerPc : closer;
  resultsChan : list Repository.t;
  resultsClosed : bool;
  errorsChan : list error;
  errorsClosed : bool;
  (* the variables [resultsChan] and [errorsChan] of the collecting loop,
     shared with the closing goroutine, once set to nil *)
  resultsNil : bool;
  errorsNil : bool;
  processedRepos : list Repository.t;
  errors : list error;
  panicked : bool
}.

Definition set_toSend v s := mkState v (reposChan s) (reposClosed s) (workers s) (wg s) (closerPc s) (resultsChan s) (resultsClosed s) (errorsChan s) (errorsClosed s) (resultsNil s) (errorsNil s) (processedRepos s) (errors s) (panicked s).
Definition set_reposChan v s := mkState (toSend s) v (reposClosed s) (workers s) (wg s) (closerPc s) (resultsChan s) (resultsClosed s) (errorsChan s) (errorsClosed s) (resultsNil s) (errorsNil s) (processedRepos s) (errors s) (panicked s).
Definition set_reposClosed v s := mkState (toSend s) (reposChan s) v (workers s) (wg s) (closerPc s) (resultsChan s) (resultsClosed s) (errorsChan s) (errorsClosed s) (resultsNil s) (errorsNil s) (processedRepos s) (errors s) (panicked s).
Definition set_workers v s := mkState (toSend s) (reposChan s) (reposClosed s) v (wg s) (closerPc s) (resultsChan s) (resultsClosed s) (errorsChan s) (errorsClosed s) (resultsNil s) (errorsNil s) (processedRepos s) (errors s) (panicked s).
Definition set_wg v s := mkState (toSend s) (reposChan s) (reposClosed s) (workers s) v (closerPc s) (resultsChan s) (resultsClosed s) (errorsChan s) (errorsClosed s) (resultsNil s) (errorsNil s) (processedRepos s) (errors s) (panicked s).
Definition set_closerPc v s := mkState (toSend s) (reposChan s) (reposClosed s) (workers s) (wg s) v (resultsChan s) (resultsClosed s) (errorsChan s) (errorsClosed s) (resultsNil s) (errorsNil s) (processedRepos s) (errors s) (panicked s).
Definition set_resultsChan v s := mkState (toSend s) (reposChan s) (reposClosed s) (workers s) (wg s) (closerPc s) v (resultsClosed s) (errorsChan s) (errorsClosed s) (resultsNil s) (errorsNil s) (processedRepos s) (errors s) (panicked s).
Definition set_resultsClosed v s := mkState (toSend s) (reposChan s) (reposClosed s) (workers s) (wg s) (closerPc s) (resultsChan s) v (errorsChan s) (errorsClosed s) (resultsNil s) (errorsNil s) (processedRepos s) (errors s) (panicked s).
Definition set_errorsChan v s := mkState (toSend s) (reposChan s) (reposClosed s) (workers s) (wg s) (closerPc s) (resultsChan s) (resultsClosed s) v (errorsClosed s) (resultsNil s) (errorsNil s) (processedRepos s) (errors s) (panicked s).
Definition set_errorsClosed v s := mkState (toSend s) (reposChan s) (reposClosed s) (workers s) (wg s) (closerPc s) (resultsChan s) (resultsClosed s) (errorsChan s) v (resultsNil s) (errorsNil s) (processedRepos s) (errors s) (panicked s).
Definition set_resultsNil v s := mkState (toSend s) (reposChan s) (reposClosed s) (workers s) (wg s) (closerPc s) (resultsChan s) (resultsClosed s) (errorsChan s) (errorsClosed s) v (errorsNil s) (processedRepos s) (errors s) (panicked s).
Definition set_errorsNil v s := mkState (toSend s) (reposChan s) (reposClosed s) (workers s) (wg s) (closerPc s) (resultsChan s) (resultsClosed s) (errorsChan s) (errorsClosed s) (resultsNil s) v (processedRepos s) (errors s) (panicked s).
Definition set_processedRepos v s := mkState (toSend s) (reposChan s) (reposClosed s) (workers s) (wg s) (closerPc s) (resultsChan s) (resultsClosed s) (errorsChan s) (errorsClosed s) (resultsNil s) (errorsNil s) v (errors s) (panicked s).
Definition set_errors v s := mkState (toSend s) (reposChan s) (reposClosed s) (workers s) (wg s) (closerPc s) (resultsChan s) (resultsClosed s) (errorsChan s) (errorsClosed s) (resultsNil s) (errorsNil s) (processedRepos s) v (panicked s).
Definition panic s := mkState (toSend s) (reposChan s) (reposClosed s) (workers s) (wg s) (closerPc s) (resultsChan s) (resultsClosed s) (errorsChan s) (errorsClosed s) (resultsNil s) (errorsNil s) (processedRepos s) (errors s) true.

Definition maxWorkers : nat := 10.

(** The state once [GenerateReport] has made the channels and started its
    goroutines: [min maxWorkers (len repos)] workers, each counted in the
    wait group. *)
Definition initial (repos : list Repository.t) : state :=
  let n := Nat.min maxWorkers (length repos) in
  mkState repos [] false (replicate n WReceive) n CWait [] false [] false
    false false [] [] false.

(** What a worker does with the outcome of [processRepository]. *)
Definition afterProcess (repo : Repository.t)
    (outcome : Repository.t * option error) : worker :=
  match outcome.2 with
  | Some err => WSendError (ErrorfW "repository %s: %w" [Repository.FullName repo] err)
  | None => WSendResult outcome.1
  end.

(** The collecting loop has left its [for !done]. *)
Definition finished (s : state) : bool := resultsNil s && errorsNil s.

(** One action of one goroutine. [cap] is the capacity of the three
    channels, [len(repos)]. A send on a full buffer and a receive on an
    empty open channel are not steps: the goroutine waits. The provider
    answers each call of [processRepository] as it pleases, so every step
    of that kind picks its own [client]. *)
Inductive step (cap : nat) (since until : Z) : state -> state -> Prop :=
  | step_feed s repo rest :
      panicked s = false -> toSend s = repo :: rest ->
      length (reposChan s) < cap ->
      step cap since until s
        (set_reposChan (reposChan s ++ [repo]) (set_toSend rest s))
  | step_feed_close s :
      panicked s = false -> toSend s = [] -> reposClosed s = false ->
      step cap since until s (set_reposClosed true s)
  | step_receive s i repo rest :
      panicked s = false -> workers s !! i = Some WReceive ->
      reposChan s = repo :: rest ->
      step cap since until s
        (set_workers (<[i := WProcess repo]> (workers s)) (set_reposChan rest s))
  | step_return s i :
      panicked s = false -> workers s !! i = Some WReceive ->
      reposChan s = [] -> reposClosed s = true ->
      step cap since until s
        (set_wg (pred (wg s)) (set_workers (<[i := WDone]> (workers s)) s))
  | step_process s i repo client :
      panicked s = false -> workers s !! i = Some (WProcess repo) ->
      step cap since until s
        (set_workers
           (<[i := afterProcess repo (processRepository client repo since until).2]>
              (workers s)) s)
  | step_send_error s i err :
      panicked s = false -> workers s !! i = Some (WSendError err) ->
      errorsClosed s = false -> length (errorsChan s) < cap ->
      step cap since until s
        (set_workers (<[i := WReceive]> (workers s))
           (set_errorsChan (errorsChan s ++ [err]) s))
  | step_send_error_closed s i err :
      panicked s = false -> workers s !! i = Some (WSendError err) ->
      errorsClosed s = true ->
      step cap since until s (panic s)
  | step_send_result s i processedRepo :
      panicked s = false -> workers s !! i = Some (WSendResult processedRepo) ->
      resultsClosed s = false -> length (resultsChan s) < cap ->
      step cap since until s
        (set_workers (<[i := WReceive]> (workers s))
           (set_resultsChan (resultsChan s ++ [processedRepo]) s))
  | step_send_result_closed s i processedRepo :
      panicked s = false -> workers s !! i = Some (WSendResult processedRepo) ->
      resultsClosed s = true ->
      step cap since until s (panic s)
  | step_close_results s :
      panicked s = false -> closerPc s = CWait -> wg s = 0 ->
      step cap since until s
        (if resultsNil s || resultsClosed s then panic s
         else set_closerPc CCloseErrors (set_resultsClosed true s))
  | step_close_errors s :
      panicked s = false -> closerPc s = CCloseErrors ->
      step cap since until s
        (if errorsNil s || errorsClosed s then panic s
         else set_closerPc CDone (set_errorsClosed true s))
  | step_collect_result s repo rest :
      panicked s = false -> resultsNil s = false ->
      resultsChan s = repo :: rest ->
      step cap since until s
        (set_processedRepos (processedRepos s ++ [repo]) (set_resultsChan rest s))
  | step_results_drained s :
      panicked s = false -> resultsNil s = false ->
      resultsChan s = [] -> resultsClosed s = true ->
      step cap since until s (set_resultsNil true s)
  | step_collect_error s err rest :
      panicked s = false -> errorsNil s = false ->
      errorsChan s = err :: rest ->
      step cap since until s
        (set_errors (errors s ++ [err]) (set_errorsChan rest s))
  | step_errors_drained s :
      panicked s = false -> errorsNil s = false ->
      errorsChan s = [] -> errorsClosed s = true ->
      step cap since until s (set_errorsNil true s).

(** The states some run of the pool on [repos] goes through. *)
Definition reachable (repos : list Repository.t) (since until : Z) (s : state) : Prop :=
  rtc (step (length repos) since until) (initial repos) s.

(** The repositories a worker holds. *)
Definition holding (w : worker) : nat :=
  match w with
  | WProcess _ | WSendError _ | WSendResult _ => 1
  | WReceive | WDone => 0
  end.

Definition running (w : worker) : nat :=
  match w with WDone => 0 | _ => 1 end.

(** The number of steps a run can still take, at most: every repository
    pays for the stations still ahead of it, every goroutine for the
    control steps it has left. *)
Definition workerFuel (w : worker) : nat :=
  match w with
  | WReceive => 1
  | WProcess _ => 5
  | WSendError _ | WSendResult _ => 4
  | WDone => 0
  end.

Definition closerFuel (c : closer) : nat :=
  match c with CWait => 2 | CCloseErrors => 1 | CDone => 0 end.

Definition stepsLeft (s : state) : nat :=
  if panicked s then 0
  else 1 + 6 * length (toSend s) + 5 * length (reposChan s)
       + (if reposClosed s then 0 else 1)
       + sum_list (workerFuel <$> workers s)
       + closerFuel (closerPc s)
       + 2 * length (resultsChan s) + 2 * length (errorsChan s)
       + (if resultsNil s then 0 else 1) + (if errorsNil s then 0 else 1).

(** What every reachable state of the pool on [n] repositories satisfies:
    no goroutine has panicked; every repository is at exactly one station;
    the wait group counts the workers still running; a closed work queue
    has been fed completely; a returned worker has seen the queue closed and
    empty; the closing goroutine is where the closed flags say; and a
    variable of the collecting loop is nil only once its channel is closed
    and drained. *)
Record inv (n : nat) (s : state) : Prop := {
  inv_panicked : panicked s = false;
  inv_count :
    length (toSend s) + length (reposChan s) + sum_list (holding <$> workers s)
    + length (resultsChan s) + length (errorsChan s)
    + length (processedRepos s) + length (errors s) = n;
  inv_wg : wg s = sum_list (running <$> workers s);
  inv_workers : length (workers s) = Nat.min maxWorkers n;
  inv_feed : reposClosed s = true -> toSend s = [];
  inv_done :
    forall i, workers s !! i = Some WDone ->
              reposClosed s = true ∧ reposChan s = [];
  inv_closer :
    match closerPc s with
    | CWait => resultsClosed s = false ∧ errorsClosed s = false
    | CCloseErrors => wg s = 0 ∧ resultsClosed s = true ∧ errorsClosed s = false
    | CDone => wg s = 0 ∧ resultsClosed s = true ∧ errorsClosed s = true
    end;
  inv_resultsNil :
    resultsNil s = true -> resultsClosed s = true ∧ resultsChan s = [];
  inv_errorsNil :
    errorsNil s = true -> errorsClosed s = true ∧ errorsChan s = []
}.

(** Where the items of a state of the pool come from: a repository on its
    way to a worker is one of the input; a result is what some run of
    [processRepository] on an input repository returned without error; a
    failure is the error of such a run, wrapped with the full name of the
    repository. *)
Definition fromInput (repos : list Repository.t) (since until : Z)
    (processedRepo : Repository.t) : Prop :=
  exists repo client,
    repo ∈ repos
    ∧ (processRepository client repo since until).2 = (processedRepo, None).

Definition failureOf (repos : list Repository.t) (since until : Z)
    (err : error) : Prop :=
  exists repo client cause,
    repo ∈ repos
    ∧ (processRepository client repo since until).2.2 = Some cause
    ∧ err = ErrorfW "repository %s: %w" [Repository.FullName repo] cause.

Definition workerProvenance (repos : list Repository.t) (since until : Z)
    (w : worker) : Prop :=
  match w with
  | WProcess repo => repo ∈ repos
  | WSendError err => failureOf repos since until err
  | WSendResult processedRepo => fromInput repos since until processedRepo
  | WReceive | WDone => True
  end.

Record provenance (repos : list Repository.t) (since until : Z) (s : state)
    : Prop := {
  prov_toSend : Forall (fun repo => repo ∈ repos) (toSend s);
  prov_reposChan : Forall (fun repo => repo ∈ repos) (reposChan s);
  prov_workers : Forall (workerProvenance repos since until) (workers s);
  prov_resultsChan : Forall (fromInput repos since until) (resultsChan s);
  prov_errorsChan : Forall (failureOf repos since until) (errorsChan s);
  prov_processedRepos : Forall (fromInput repos since until) (processedRepos s);
  prov_errors : Forall (failureOf repos since until) (errors s)
}.

(** ** internal/reporter: GenerateReport as a whole *)

Module Period.
Record t := mk { Since : Z; Until : Z }.
End Period.

Module Report.
Record t := mk {
  Target : string;
  Period : Period.t;
  Repositories : list Repository.t;
  Summary : gmap string ContributorStats.t
}.
End Report.

(** What [GenerateReport] can return, given what [ListRepositories]
    returned: the wrapped error and no report when the listing failed;
    otherwise the report assembled from the repositories collected at the
    end of some run of the pool. *)
Inductive GenerateReport_returns (listResult : list Repository.t * option error)
    (target : string) (since until : Z)
    : option Report.t * option error -> Prop :=
  | returns_listing_error err :
      listResult.2 = Some err ->
      GenerateReport_returns listResult target since until
        (None, Some (ErrorfW "failed to list repositories: %w" [] err))
  | returns_report s :
      listResult.2 = None ->
      reachable listResult.1 since until s ->
      finished s = true ->
      GenerateReport_returns listResult target since until
        (Some (Report.mk target (Period.mk since until) (processedRepos s)
                 (generateSummary (processedRepos s))),
         None).

(** ** Aggregation, seen along the traversal *)

(** One step of the traversal. *)
Definition addEntry (summary : gmap string ContributorStats.t)
    (x : string * Commit.t) : gmap string ContributorStats.t :=
  addCommit x.1 summary x.2.

Definition entryKey (x : string * Commit.t) : string :=
  getAuthorKey (Commit.Author x.2).

(** The cross-check of an entry: each total is the sum of the matching
    field over the per-repository map. *)
Definition balanced (stats : ContributorStats.t) : Prop :=
  ContributorStats.TotalCommits stats =
    sumOver RepositoryStats.Commits (ContributorStats.Repositories stats)
  ∧ ContributorStats.TotalAdditions stats =
    sumOver RepositoryStats.Additions (ContributorStats.Repositories stats)
  ∧ ContributorStats.TotalDeletions stats =
    sumOver RepositoryStats.Deletions (ContributorStats.Repositories stats).

(** The same step on the numbers alone: what [addCommit] does to the
    [totals] of the entry of the commit's author. *)
Definition bumpRepo (commit : Commit.t) (repoStats : RepositoryStats.t)
    : RepositoryStats.t :=
  RepositoryStats.mk
    (int_incr (RepositoryStats.Commits repoStats))
    (int_add (RepositoryStats.Additions repoStats)
       (CommitStats.Additions (Commit.Stats commit)))
    (int_add (RepositoryStats.Deletions repoStats)
       (CommitStats.Deletions (Commit.Stats commit))).

Definition bump (x : string * Commit.t)
    (t : Z * Z * Z * gmap string RepositoryStats.t)
    : Z * Z * Z * gmap string RepositoryStats.t :=
  (int_incr t.1.1.1,
   int_add t.1.1.2 (CommitStats.Additions (Commit.Stats x.2)),
   int_add t.1.2 (CommitStats.Deletions (Commit.Stats x.2)),
   <[x.1 := bumpRepo x.2 (default RepositoryStats.zero (t.2 !! x.1))]> t.2).

Definition addTotals (m : gmap string (Z * Z * Z * gmap string RepositoryStats.t))
    (x : string * Commit.t) :=
  <[entryKey x := bump x (default (0%Z, 0%Z, 0%Z, ∅) (m !! entryKey x))]> m.

(** The step on the seeded fields alone: the first author seen stays. *)
Definition addSeed (m : gmap string Author.t) (x : string * Commit.t) :=
  <[entryKey x := default (Commit.Author x.2) (m !! entryKey x)]> m.

(** Commits that share an author key carry the same author record. *)
Definition sameAuthors (l : list (string * Commit.t)) : Prop :=
  forall x y, x ∈ l -> y ∈ l -> entryKey x = entryKey y ->
              Commit.Author x.2 = Commit.Author y.2.

(** ** Aggregation, read off the traversal

    What an entry of the summary is in terms of the commits visited: the
    commits under one key, their tally on [int], and the tally per
    repository. *)

(** The entry stored by the body of the loop, given the entry it started
    from. *)
Definition updateStats (fullName : string) (stats : ContributorStats.t)
    (commit : Commit.t) : ContributorStats.t :=
  ContributorStats.mk
    (ContributorStats.Name stats) (ContributorStats.Email stats)
    (ContributorStats.Login stats)
    (int_incr (ContributorStats.TotalCommits stats))
    (int_add (ContributorStats.TotalAdditions stats)
       (CommitStats.Additions (Commit.Stats commit)))
    (int_add (ContributorStats.TotalDeletions stats)
       (CommitStats.Deletions (Commit.Stats commit)))
    (<[fullName :=
         bumpRepo commit
           (default RepositoryStats.zero
              (ContributorStats.Repositories stats !! fullName))]>
       (ContributorStats.Repositories stats)).

(** The entry of one key along the commits of that key. *)
Definition entryStep (entry : option ContributorStats.t) (x : string * Commit.t)
    : option ContributorStats.t :=
  Some (updateStats x.1
          (match entry with
           | Some stats => stats
           | None => newContributor (Commit.Author x.2)
           end) x.2).

Definition commitsOf (key : string) (l : list (string * Commit.t))
    : list (string * Commit.t) :=
  filter (fun x => entryKey x = key) l.

Definition commitsIn (fullName : string) (l : list (string * Commit.t))
    : list (string * Commit.t) :=
  filter (fun x => x.1 = fullName) l.

(** The exact sum of a statistic over a list of visited commits. *)
Definition sumZ (field : CommitStats.t -> Z) (l : list (string * Commit.t)) : Z :=
  foldr (fun x acc => (field (Commit.Stats x.2) + acc)%Z) 0%Z l.

(** Number of commits, added lines and deleted lines of a list of visited
    commits, each wrapped to [int]. *)
Definition tally (l : list (string * Commit.t)) : RepositoryStats.t :=
  RepositoryStats.mk (wrap (Z.of_nat (length l)))
    (wrap (sumZ CommitStats.Additions l)) (wrap (sumZ CommitStats.Deletions l)).

Definition repoTally (fullName : string) (l : list (string * Commit.t))
    : option RepositoryStats.t :=
  match commitsIn fullName l with
  | [] => None
  | ys => Some (tally ys)
  end.

(** What the entry of a key is after the commits [l] of that key. *)
Definition readsOff (l : list (string * Commit.t)) (stats : ContributorStats.t)
    : Prop :=
  Some (seed stats) = (fun x => Commit.Author x.2) <$> head l
  ∧ ContributorStats.TotalCommits stats = RepositoryStats.Commits (tally l)
  ∧ ContributorStats.TotalAdditions stats = RepositoryStats.Additions (tally l)
  ∧ ContributorStats.TotalDeletions stats = RepositoryStats.Deletions (tally l)
  ∧ forall fullName,
      ContributorStats.Repositories stats !! fullName = repoTally fullName l.

(** [z] is a value of [int]. *)
Definition fits_int (z : Z) : Prop := (- int_half <= z < int_half)%Z.

(** ** Sample inputs

    The repository and the commits of the summary test of the repository,
    and providers that answer in a fixed way. *)

Definition johndoe : Author.t := Author.mk "John Doe" "john@example.com" "johndoe".

Definition commit_abc123 : Commit.t :=
  Commit.mk "abc123" "Test commit" johndoe 0 (CommitStats.mk 10 5 15).

Definition commit_def456 : Commit.t :=
  Commit.mk "def456" "Another commit" johndoe 0 (CommitStats.mk 20 3 23).

Definition repo1 : Repository.t :=
  Repository.mk "repo1" "owner/repo1" "" "main"
    [Branch.mk "main" "" [commit_abc123; commit_def456]].

(** Two commits under the login x with different display names, and the
    same repository with the two commits in either order. *)
Definition commit_alice : Commit.t :=
  Commit.mk "a1" "" (Author.mk "Alice" "" "x") 0 (CommitStats.mk 1 0 1).

Definition commit_bob : Commit.t :=
  Commit.mk "b2" "" (Author.mk "Bob" "" "x") 0 (CommitStats.mk 2 0 2).

Definition shared (commits : list Commit.t) : Repository.t :=
  Repository.mk "repo1" "owner/repo1" "" "main" [Branch.mk "main" "" commits].

(** A repository as the provider lists it, before processing. *)
Definition listed (fullName : string) : Repository.t :=
  Repository.mk "" fullName "" "main" [].

(** A provider with the branches main and develop that serves the commits
    of main and fails on every other branch. *)
Definition mainOnlyClient : GitHubClient := {|
  ListBranches := fun _ _ => ([named "main" "1f"; named "develop" "2e"], None);
  ListCommits := fun _ _ branch _ _ =>
    if String.eqb branch "main" then ([commit_abc123], None)
    else ([], Some (ProviderError "502"))
|}.

(** A provider with the same branches that fails on every commit listing. *)
Definition noCommitsClient : GitHubClient := {|
  ListBranches := fun _ _ => ([named "main" "1f"; named "develop" "2e"], None);
  ListCommits := fun _ _ _ _ _ => ([], Some (ProviderError "502"))
|}.

(** The end of a run of the pool on a repository with a malformed name
    and one the provider [mainOnlyClient] serves. *)
Definition poolEnd : state :=
  mkState [] [] true [WDone; WDone] 0 CDone [] true [] true true true
    [(processRepository mainOnlyClient (listed "owner/repo1") 0 1).2.1]
    [ErrorfW "repository %s: %w" ["repo1"%string]
       (Errorf "invalid repository name format: %s" ["repo1"%string])]
    false.

(** A provider whose branch listing fails. *)
Definition noBranchesClient : GitHubClient := {|
  ListBranches := fun _ _ => ([], Some (ProviderError "404"));
  ListCommits := fun _ _ _ _ _ => ([], None)
|}.



(** A run of the pool on one repository with a malformed name, stopped when
    the worker is about to send the failure. *)
Definition poolSending : state :=
  mkState [] [] false
    [WSendError
       (ErrorfW "repository %s: %w" ["repo1"%string]
          (Errorf "invalid repository name format: %s" ["repo1"%string]))]
    1 CWait [] false [] false false false [] [] false.

(** A go-github answer: one page with one commit whose statistics are
    [additions], [deletions] and [total]. *)
Definition statsCommit (additions deletions total : Z) : github.RepositoryCommit := {|
  github.SHA := Some "abc123";
  github.Commit := None;
  github.RCAuthor := None;
  github.Stats := Some {| github.Additions := Some additions;
                          github.Deletions := Some deletions;
                          github.Total := Some total |}
|}.

Definition statsProvider (additions deletions total : Z) : github.Client := {|
  github.Repositories_ListCommits := fun _ _ _ =>
    inl ([statsCommit additions deletions total], {| github.NextPage := 0 |});
  github.Repositories_GetCommit := fun _ _ _ =>
    inl (statsCommit additions deletions total)
|}.

(** The invariant of commit statistics, on [int]. *)
Definition statsConsistent (stats : CommitStats.t) : Prop :=
  CommitStats.Total stats =
  int_add (CommitStats.Additions stats) (CommitStats.Deletions stats).

(** * Properties *)

(** ** Arithmetic on [int] *)

Lemma int_modulus_pos : (0 < int_modulus)%Z.
Proof. reflexivity. Qed.

Lemma wrap_idemp_l a b : wrap (wrap a + b) = wrap (a + b).
Proof.
  unfold wrap.
  replace ((a + int_half) mod int_modulus - int_half + b + int_half)%Z
    with ((a + int_half) mod int_modulus + b)%Z by lia.
  rewrite Zplus_mod_idemp_l. f_equal. f_equal. lia.
Qed.

Lemma wrap_idemp_r a b : wrap (a + wrap b) = wrap (a + b).
Proof. rewrite (Z.add_comm a), wrap_idemp_l. f_equal. lia. Qed.

Lemma int_add_comm a b : int_add a b = int_add b a.
Proof. unfold int_add. f_equal. lia. Qed.

Lemma int_add_assoc a b c : int_add (int_add a b) c = int_add a (int_add b c).
Proof.
  unfold int_add. rewrite wrap_idemp_l, wrap_idemp_r. f_equal. lia.
Qed.

(** Two additions may be swapped: the accumulator ends the same. *)
Lemma int_add_swap a b c : int_add (int_add a b) c = int_add (int_add a c) b.
Proof. rewrite !int_add_assoc. f_equal. apply int_add_comm. Qed.

(** ** Branch selection *)

Lemma firstNamed_Some name branches b :
  firstNamed name branches = Some b -> b ∈ branches ∧ Branch.Name b = name.
Proof.
  unfold firstNamed. intros H. apply find_some in H as [Hin Heq].
  split; [by apply list_elem_of_In | by apply String.eqb_eq].
Qed.

(** The inner loop appends the first branch of the given name, if there is
    one, and marks its name. *)
Lemma appendFirstNamed_spec name branches (st : selection) :
  appendFirstNamed name branches st =
  (st.1 ++ option_list (firstNamed name branches),
   if firstNamed name branches is Some _ then <[name := true]> st.2 else st.2).
Proof.
  induction branches as [|b rest IH]; simpl.
  - rewrite app_nil_r. by destruct st.
  - unfold firstNamed in *. simpl.
    destruct (String.eqb_spec (Branch.Name b) name) as [->|Hne]; [done|].
    apply IH.
Qed.

Lemma marks_appendFirstNamed name branches st :
  marks st -> marks (appendFirstNamed name branches st).
Proof.
  intros Hm k. rewrite appendFirstNamed_spec. simpl.
  destruct (firstNamed name branches) as [b|] eqn:Hf; simpl.
  - apply firstNamed_Some in Hf as [_ Hn].
    rewrite fmap_app, elem_of_app. simpl. rewrite Hn, list_elem_of_singleton.
    unfold branchMap_get. destruct (decide (k = name)) as [->|Hk].
    + rewrite lookup_insert_eq. simpl. tauto.
    + rewrite lookup_insert_ne by done. specialize (Hm k).
      unfold branchMap_get in Hm. tauto.
  - rewrite app_nil_r. apply Hm.
Qed.

Lemma select_loop_policy branches names st :
  marks st ->
  (foldl (fun st importantBranch =>
            if negb (branchMap_get st.2 importantBranch)
            then appendFirstNamed importantBranch branches st
            else st) st names).1 =
  foldl (fun out name =>
           if decide (name ∈ Branch.Name <$> out) then out
           else out ++ option_list (firstNamed name branches)) st.1 names.
Proof.
  revert st. induction names as [|n names IH]; intros st Hm; [done|].
  simpl. specialize (Hm n) as Hn.
  destruct (branchMap_get st.2 n) eqn:Hg; simpl.
  - rewrite decide_True by (by apply Hn). by apply IH.
  - rewrite decide_False by (intros Hin; apply Hn in Hin; congruence).
    rewrite IH by (by apply marks_appendFirstNamed).
    by rewrite appendFirstNamed_spec.
Qed.

Lemma selectBranchesToProcess_select_policy branches defaultBranch :
  selectBranchesToProcess branches defaultBranch =
  select_policy branches defaultBranch.
Proof.
  unfold selectBranchesToProcess, select_policy.
  rewrite select_loop_policy.
  - by rewrite appendFirstNamed_spec.
  - apply marks_appendFirstNamed. intros k. unfold branchMap_get. simpl.
    rewrite lookup_empty. simpl. split; [done|]. by intros ?%elem_of_nil.
Qed.

Lemma names_option_list_firstNamed name branches :
  Branch.Name <$> option_list (firstNamed name branches) =
  if firstNamed name branches is Some _ then [name] else [].
Proof.
  destruct (firstNamed name branches) as [b|] eqn:Hf; [|done].
  apply firstNamed_Some in Hf as [_ <-]. done.
Qed.

Lemma filter_iff_elem {A} (P Q : A -> Prop) `{forall x, Decision (P x)}
    `{forall x, Decision (Q x)} (l : list A) :
  (forall x, x ∈ l -> P x <-> Q x) -> filter P l = filter Q l.
Proof.
  induction l as [|x l IH]; intros HPQ; [done|].
  assert (Hx : P x <-> Q x) by (apply HPQ; left).
  assert (Hl : filter P l = filter Q l).
  { apply IH. intros y Hy. apply HPQ. by right. }
  destruct (decide (P x)) as [HP|HP].
  - rewrite !filter_cons_True by tauto. by rewrite Hl.
  - rewrite !filter_cons_False by tauto. done.
Qed.

(** Along a list of distinct names the policy adds, in order, the first
    branch of every name not selected before. *)
Lemma policy_loop_closed branches names out :
  NoDup names ->
  foldl (fun out name =>
           if decide (name ∈ Branch.Name <$> out) then out
           else out ++ option_list (firstNamed name branches)) out names =
  out ++ omap (fun name => firstNamed name branches)
              (filter (fun name => name ∉ Branch.Name <$> out) names).
Proof.
  intros Hnd. revert out. induction Hnd as [|n names Hn Hnd IH]; intros out.
  - simpl. by rewrite app_nil_r.
  - simpl. destruct (decide (n ∈ Branch.Name <$> out)) as [Hin|Hin].
    + rewrite IH. by rewrite filter_cons_False by (by intros ?).
    + rewrite IH, filter_cons_True by done. simpl.
      rewrite <-app_assoc. f_equal.
      assert (Hfilter :
        filter (fun name => name ∉ Branch.Name <$>
                  (out ++ option_list (firstNamed n branches))) names
        = filter (fun name => name ∉ Branch.Name <$> out) names).
      { apply filter_iff_elem. intros k Hk.
        rewrite fmap_app, elem_of_app, names_option_list_firstNamed.
        destruct (firstNamed n branches);
          [|rewrite elem_of_nil; tauto].
        rewrite list_elem_of_singleton.
        split; [tauto|]. intros Hko [?| ->]; tauto. }
      rewrite Hfilter. by destruct (firstNamed n branches).
Qed.

Lemma omap_filter_None {A B} (f : A -> option B) (P : A -> Prop)
    `{forall x, Decision (P x)} (l : list A) :
  (forall x, ¬ P x -> f x = None) -> omap f (filter P l) = omap f l.
Proof.
  intros Hf. induction l as [|x l IH]; [done|].
  destruct (decide (P x)) as [HP|HP].
  - rewrite filter_cons_True by done. simpl.
    destruct (f x); [f_equal|]; apply IH.
  - rewrite filter_cons_False by done. rewrite IH. simpl.
    by rewrite (Hf x HP).
Qed.

Lemma omap_length_le {A B} (f : A -> option B) (l : list A) :
  length (omap f l) <= length l.
Proof.
  induction l as [|x l IH]; [simpl; lia|]. csimpl.
  destruct (f x); simpl; lia.
Qed.

Lemma importantBranches_NoDup : NoDup importantBranches.
Proof. apply (bool_decide_unpack _). by vm_compute. Qed.

(** The selection in closed form. *)
Lemma select_policy_closed branches defaultBranch :
  select_policy branches defaultBranch =
  option_list (firstNamed defaultBranch branches)
  ++ omap (fun name => firstNamed name branches)
          (filter (fun name => name ≠ defaultBranch) importantBranches).
Proof.
  unfold select_policy.
  rewrite policy_loop_closed by apply importantBranches_NoDup. f_equal.
  rewrite names_option_list_firstNamed.
  destruct (firstNamed defaultBranch branches) eqn:Hd.
  - f_equal. apply list_filter_iff. intros k. by rewrite list_elem_of_singleton.
  - rewrite (omap_filter_None _ (fun name => name ≠ defaultBranch)).
    + apply omap_filter_None. intros k Hk. exfalso. apply Hk. apply not_elem_of_nil.
    + intros k Hk. destruct (decide (k = defaultBranch)) as [->|]; [done|tauto].
Qed.

Lemma names_omap_firstNamed branches (names : list string) :
  Branch.Name <$> omap (fun name => firstNamed name branches) names =
  filter (fun name => is_Some (firstNamed name branches)) names.
Proof.
  induction names as [|n names IH]; [done|]. csimpl.
  destruct (firstNamed n branches) as [b|] eqn:Hf.
  - rewrite filter_cons_True by (by rewrite Hf). csimpl. rewrite IH.
    apply firstNamed_Some in Hf as [_ ->]. done.
  - rewrite filter_cons_False by (rewrite Hf; by intros [??]). done.
Qed.

Lemma omap_firstNamed_elem branches (names : list string) b :
  b ∈ omap (fun name => firstNamed name branches) names ->
  b ∈ branches ∧ Branch.Name b ∈ names.
Proof.
  rewrite list_elem_of_omap. intros (n & Hn & Hf).
  apply firstNamed_Some in Hf as [? ->]. done.
Qed.

(** C3. [getAuthorKey] is a function of the author record alone, defined on
    every author: it is the login when the login is not empty, otherwise the
    email when the email is not empty, otherwise the display name. *)
Theorem getAuthorKey_priority (author : Author.t) :
  (Author.Login author ≠ "" -> getAuthorKey author = Author.Login author) ∧
  (Author.Login author = "" -> Author.Email author ≠ "" ->
   getAuthorKey author = Author.Email author) ∧
  (Author.Login author = "" -> Author.Email author = "" ->
   getAuthorKey author = Author.Name author).
Proof.
  unfold getAuthorKey.
  destruct (String.eqb_spec (Author.Login author) "") as [HL|HL];
    destruct (String.eqb_spec (Author.Email author) "") as [HE|HE];
    simpl; repeat split; intros; congruence.
Qed.

Lemma getAuthorKey_priority_witness :
  getAuthorKey (Author.mk "z" "y" "x") = "x" ∧
  getAuthorKey (Author.mk "z" "y" "") = "y" ∧
  getAuthorKey (Author.mk "z" "" "") = "z".
Proof.
  split; [|split].
  - apply (proj1 (getAuthorKey_priority (Author.mk "z" "y" "x"))). discriminate.
  - apply (proj1 (proj2 (getAuthorKey_priority (Author.mk "z" "y" "")))).
    + reflexivity.
    + discriminate.
  - apply (proj2 (proj2 (getAuthorKey_priority (Author.mk "z" "" ""))));
      reflexivity.
Defined.


(** C5, as the code has it. On the branches feature/x, main, develop,
    master, feature/y with default main the selector returns main, master,
    develop: the default first, then the order of the priority list, in
    which master comes before develop. *)
Theorem selectBranchesToProcess_scenario (s1 s2 s3 s4 s5 : string) :
  selectBranchesToProcess
    [named "feature/x" s1; named "main" s2; named "develop" s3;
     named "master" s4; named "feature/y" s5] "main"
  = [named "main" s2; named "master" s4; named "develop" s3].
Proof. reflexivity. Qed.

(** C5, as stated, fails: the selection is not main, develop, master. *)
Lemma selectBranchesToProcess_scenario_order :
  selectBranchesToProcess
    [named "feature/x" ""; named "main" ""; named "develop" "";
     named "master" ""; named "feature/y" ""] "main"
  ≠ [named "main" ""; named "develop" ""; named "master" ""].
Proof. vm_compute. discriminate. Qed.

(** C10. The selection has at most seven branches, their names are pairwise
    distinct, and each of them is one of the input branches. *)
Theorem selectBranchesToProcess_bounded (branches : list Branch.t)
    (defaultBranch : string) :
  length (selectBranchesToProcess branches defaultBranch) <= 7
  ∧ NoDup (Branch.Name <$> selectBranchesToProcess branches defaultBranch)
  ∧ Forall (fun b => b ∈ branches)
           (selectBranchesToProcess branches defaultBranch).
Proof.
  rewrite selectBranchesToProcess_select_policy, select_policy_closed.
  split; [|split].
  - rewrite length_app.
    assert (length (option_list (firstNamed defaultBranch branches)) <= 1)
      by (destruct (firstNamed defaultBranch branches); simpl; lia).
    pose proof (omap_length_le (fun name => firstNamed name branches)
                  (filter (fun name => name ≠ defaultBranch) importantBranches)).
    pose proof (length_filter (fun name => name ≠ defaultBranch) importantBranches).
    change (length importantBranches) with 6 in *. lia.
  - rewrite fmap_app, names_option_list_firstNamed, names_omap_firstNamed.
    apply NoDup_app. split; [|split].
    + destruct (firstNamed defaultBranch branches); [apply NoDup_singleton|constructor].
    + intros k Hk Hin.
      apply list_elem_of_filter in Hin as [_ Hin].
      apply list_elem_of_filter in Hin as [Hne _].
      destruct (firstNamed defaultBranch branches);
        [apply list_elem_of_singleton in Hk; done | by apply elem_of_nil in Hk].
    + do 2 apply NoDup_filter. apply importantBranches_NoDup.
  - apply Forall_app. split.
    + destruct (firstNamed defaultBranch branches) as [b|] eqn:Hf; simpl; [|done].
      apply firstNamed_Some in Hf as [Hin _]. constructor; [done | constructor].
    + apply Forall_forall. intros b Hb.
      by apply omap_firstNamed_elem in Hb as [Hb _].
Qed.

(** ** strings.Split *)

Lemma strings_Split_length s sep :
  length (strings_Split s sep) = S (strings_Count s sep).
Proof.
  induction s as [|c s IH]; [done|]. simpl.
  destruct (Ascii.eqb c sep); simpl; [by rewrite IH|].
  destruct (strings_Split s sep); simpl in *; lia.
Qed.

Lemma strings_Split_Join s sep :
  strings_Join (strings_Split s sep) sep = s.
Proof.
  induction s as [|c s IH]; [done|]. simpl.
  destruct (Ascii.eqb_spec c sep) as [->|Hc].
  - pose proof (strings_Split_length s sep) as Hlen.
    destruct (strings_Split s sep) as [|p ps]; [done|].
    simpl in *. by rewrite IH.
  - pose proof (strings_Split_length s sep) as Hlen.
    destruct (strings_Split s sep) as [|p ps]; [done|].
    destruct ps; simpl in *; by rewrite <-IH.
Qed.

(** No part of a split holds the separator. *)
Lemma strings_Split_parts s sep :
  Forall (fun p => strings_Count p sep = 0) (strings_Split s sep).
Proof.
  induction s as [|c s IH]; simpl; [by repeat constructor|].
  destruct (Ascii.eqb c sep) eqn:Hc; [by constructor|].
  destruct (strings_Split s sep) as [|p ps]; simpl.
  - repeat constructor. simpl. by rewrite Hc.
  - inversion IH; subst. constructor; [|done]. simpl. by rewrite Hc.
Qed.

(** ** The repository processor *)

Lemma processBranches_spec client fullName owner repoName since until
    (selected : list Branch.t) (st : list event * list Branch.t) :
  foldl (processBranch client fullName owner repoName since until) st selected =
  (st.1 ++ (selected ≫= branchEvents client fullName owner repoName since until),
   st.2 ++ omap (fetched client owner repoName since until) selected).
Proof.
  revert st. induction selected as [|b selected IH]; intros [tr acc].
  - simpl. by rewrite !app_nil_r.
  - cbn [foldl]. rewrite IH. csimpl.
    unfold processBranch, branchEvents, fetched. simpl.
    destruct (ListCommits client owner repoName (Branch.Name b) since until)
      as [commits [err|]]; simpl; by rewrite <-?app_assoc.
Qed.


Lemma calls_app tr1 tr2 : calls (tr1 ++ tr2) = calls tr1 ++ calls tr2.
Proof. unfold calls. apply omap_app. Qed.


Lemma calls_branchEvents client fullName owner repoName since until
    (selected : list Branch.t) :
  Forall (fun call => call = (owner, repoName))
    (calls (selected ≫= branchEvents client fullName owner repoName since until)).
Proof.
  induction selected as [|b selected IH]; [constructor|]. csimpl.
  rewrite calls_app. apply Forall_app. split; [|done].
  unfold branchEvents.
  destruct (ListCommits client owner repoName (Branch.Name b) since until)
    as [commits [err|]]; by repeat constructor.
Qed.

(** A full name with exactly one separator: the run is the call of
    [ListBranches] on the two parts and, when it succeeds, the loop over the
    selected branches. *)
Lemma processRepository_two_parts client repo since until owner repoName :
  strings_Split (Repository.FullName repo) "/" = [owner; repoName] ->
  processRepository client repo since until =
  match ListBranches client owner repoName with
  | (_, Some err) =>
      ([LogProcessing (Repository.FullName repo);
        CallListBranches owner repoName], (repo, Some err))
  | (branches, None) =>
      let selected :=
        selectBranchesToProcess branches (Repository.DefaultBranch repo) in
      ([LogProcessing (Repository.FullName repo); CallListBranches owner repoName]
       ++ (selected ≫= branchEvents client (Repository.FullName repo)
                         owner repoName since until),
       (withBranches repo (omap (fetched client owner repoName since until) selected),
        None))
  end.
Proof.
  intros Hsplit. unfold processRepository. rewrite Hsplit.
  destruct (ListBranches client owner repoName) as [branches [err|]]; [done|].
  rewrite processBranches_spec. done.
Qed.

(** Any other number of separators: the run stops before any call. *)
Lemma processRepository_malformed client repo since until :
  length (strings_Split (Repository.FullName repo) "/") ≠ 2 ->
  processRepository client repo since until =
  ([LogProcessing (Repository.FullName repo)],
   (repo, Some (Errorf "invalid repository name format: %s"
                  [Repository.FullName repo]))).
Proof.
  intros Hlen. unfold processRepository.
  destruct (strings_Split (Repository.FullName repo) "/") as [|a [|b [|c l]]];
    simpl in Hlen; done.
Qed.



(** C9. The name check of [processRepository] counts separators only. With
    any number of '/' other than one the run ends at once with the
    invalid-name error and no call is made. With exactly one '/' the name is
    accepted, empty parts included: the parts around the separator are the
    owner and the short name, every call on the provider is made with this
    pair, starting with [ListBranches], and the error returned is the one of
    [ListBranches], if any. *)
Theorem processRepository_separator (client : GitHubClient)
    (repo : Repository.t) (since until : Z) :
  (strings_Count (Repository.FullName repo) "/" ≠ 1 ->
   processRepository client repo since until =
   ([LogProcessing (Repository.FullName repo)],
    (repo, Some (Errorf "invalid repository name format: %s"
                   [Repository.FullName repo]))))
  ∧ (strings_Count (Repository.FullName repo) "/" = 1 ->
     exists owner repoName,
       Repository.FullName repo = owner +:+ String "/" repoName
       ∧ strings_Count owner "/" = 0 ∧ strings_Count repoName "/" = 0
       ∧ head (calls (processRepository client repo since until).1) =
         Some (owner, repoName)
       ∧ Forall (fun call => call = (owner, repoName))
           (calls (processRepository client repo since until).1)
       ∧ (processRepository client repo since until).2.2 =
         (ListBranches client owner repoName).2).
Proof.
  pose proof (strings_Split_length (Repository.FullName repo) "/") as Hlen.
  split; intros Hcount.
  - apply processRepository_malformed. lia.
  - pose proof (strings_Split_Join (Repository.FullName repo) "/") as Hjoin.
    pose proof (strings_Split_parts (Repository.FullName repo) "/") as Hparts.
    destruct (strings_Split (Repository.FullName repo) "/")
      as [|owner [|repoName [|]]] eqn:Hsplit; simpl in Hlen; try lia.
    exists owner, repoName. simpl in Hjoin.
    inversion Hparts as [|? ? Ho Hrest]; subst.
    inversion Hrest as [|? ? Hr _]; subst.
    rewrite (processRepository_two_parts _ _ _ _ _ _ Hsplit).
    split; [done|]. split; [done|]. split; [done|].
    destruct (ListBranches client owner repoName) as [branches [err|]];
      cbn [fst snd].
    + split; [reflexivity|]. split; [|reflexivity].
      constructor; [reflexivity|constructor].
    + generalize (selectBranchesToProcess branches (Repository.DefaultBranch repo)).
      intros selected. rewrite calls_app.
      split; [reflexivity|]. split; [|reflexivity].
      apply Forall_app. split; [|apply calls_branchEvents].
      constructor; [reflexivity|constructor].
Qed.

Lemma processRepository_separator_witness :
  processRepository mainOnlyClient (listed "repo1") 0 1 =
    ([LogProcessing "repo1"],
     (listed "repo1", Some (Errorf "invalid repository name format: %s" ["repo1"%string])))
  ∧ exists owner repoName,
      "owner/"%string = owner +:+ String "/" repoName
      ∧ strings_Count owner "/" = 0 ∧ strings_Count repoName "/" = 0
      ∧ head (calls (processRepository mainOnlyClient (listed "owner/") 0 1).1) =
        Some (owner, repoName)
      ∧ Forall (fun call => call = (owner, repoName))
          (calls (processRepository mainOnlyClient (listed "owner/") 0 1).1)
      ∧ (processRepository mainOnlyClient (listed "owner/") 0 1).2.2 =
        (ListBranches mainOnlyClient owner repoName).2.
Proof.
  split.
  - apply (proj1 (processRepository_separator mainOnlyClient (listed "repo1") 0 1)).
    vm_compute. lia.
  - apply (proj2 (processRepository_separator mainOnlyClient (listed "owner/") 0 1)).
    reflexivity.
Defined.

(** The full names owner/, /name and / are accepted, and the empty parts
    reach the provider. *)
Example processRepository_empty_parts :
  calls (processRepository mainOnlyClient (listed "owner/") 0 1).1
    = [("owner", ""); ("owner", ""); ("owner", "")]%string
  ∧ calls (processRepository mainOnlyClient (listed "/name") 0 1).1
    = [("", "name"); ("", "name"); ("", "name")]%string
  ∧ calls (processRepository mainOnlyClient (listed "/") 0 1).1
    = [("", ""); ("", ""); ("", "")]%string
  ∧ (processRepository mainOnlyClient (listed "a/b/c") 0 1).2.2
    = Some (Errorf "invalid repository name format: %s" ["a/b/c"%string]).
Proof. vm_compute. repeat split. Qed.

(** ** ListCommits *)

Lemma convertCommit_stats gc owner repo commit c :
  client.convertCommit gc owner repo commit = Some c ->
  exists detailed,
    github.Repositories_GetCommit gc owner repo (Commit.SHA c) = inl detailed
    ∧ Commit.Stats c =
      CommitStats.mk (github.GetAdditions detailed) (github.GetDeletions detailed)
        (github.GetTotal detailed).
Proof.
  unfold client.convertCommit.
  destruct (github.Repositories_GetCommit gc owner repo (github.GetSHA commit))
    as [detailed|err] eqn:Hget; [|discriminate].
  intros [= <-]. by exists detailed.
Qed.

Lemma ListCommits_converted fuel gc owner repo branch since until commits err c :
  client.ListCommits fuel gc owner repo branch since until = Some (commits, err) ->
  c ∈ commits ->
  exists commit, client.convertCommit gc owner repo commit = Some c.
Proof.
  unfold client.ListCommits.
  destruct (client.listPages _ _ _ _ _ _ _) as [[allCommits|e]|]; [| |discriminate].
  - intros [= <- <-] Hc. apply list_elem_of_omap in Hc as (commit & _ & Hc).
    by exists commit.
  - intros [= <- <-] Hc. by apply elem_of_nil in Hc.
Qed.

(** C7, as stated, fails: [ListCommits] stores the three numbers of the
    provider as they come, so a provider answer whose total is not the sum
    of its additions and deletions yields a commit that breaks the equality. *)
Lemma ListCommits_total_not_sum :
  ¬ (forall fuel gc owner repo branch since until commits err c,
       client.ListCommits fuel gc owner repo branch since until
         = Some (commits, err) ->
       c ∈ commits -> statsConsistent (Commit.Stats c)).
Proof.
  intros Hall.
  specialize (Hall 1 (statsProvider 1 1 5) "owner"%string "repo1"%string
                "main"%string 0%Z 1%Z _ _
                (Commit.mk "abc123" "" (Author.mk "" "" "") 0 (CommitStats.mk 1 1 5))
                eq_refl).
  assert (Hbad : ¬ statsConsistent (CommitStats.mk 1 1 5)) by (vm_compute; discriminate).
  apply Hbad, Hall. apply list_elem_of_singleton. reflexivity.
Qed.

(** C7, as the code has it. Every commit returned by [ListCommits] carries
    the additions, deletions and total of the detailed commit the provider
    returned for its hash, unchanged; so the commits satisfy
    total = additions + deletions whenever the provider's statistics do. *)
Theorem ListCommits_stats_from_provider (fuel : nat) (gc : github.Client)
    (owner repo branch : string) (since until : Z)
    (commits : list Commit.t) (err : option error) :
  client.ListCommits fuel gc owner repo branch since until = Some (commits, err) ->
  Forall (fun c =>
            exists detailed,
              github.Repositories_GetCommit gc owner repo (Commit.SHA c)
                = inl detailed
              ∧ Commit.Stats c =
                CommitStats.mk (github.GetAdditions detailed)
                  (github.GetDeletions detailed) (github.GetTotal detailed))
         commits
  ∧ ((forall sha detailed,
        github.Repositories_GetCommit gc owner repo sha = inl detailed ->
        github.GetTotal detailed =
        int_add (github.GetAdditions detailed) (github.GetDeletions detailed)) ->
     Forall (fun c => statsConsistent (Commit.Stats c)) commits).
Proof.
  intros Hlist.
  assert (Hcopy : forall c, c ∈ commits ->
    exists detailed,
      github.Repositories_GetCommit gc owner repo (Commit.SHA c) = inl detailed
      ∧ Commit.Stats c =
        CommitStats.mk (github.GetAdditions detailed)
          (github.GetDeletions detailed) (github.GetTotal detailed)).
  { intros c Hc.
    destruct (ListCommits_converted _ _ _ _ _ _ _ _ _ _ Hlist Hc) as [commit Hconv].
    by apply convertCommit_stats in Hconv. }
  split.
  - by apply Forall_forall.
  - intros Hprovider. apply Forall_forall. intros c Hc.
    destruct (Hcopy c Hc) as (detailed & Hget & Hstats).
    unfold statsConsistent. rewrite Hstats. cbn [CommitStats.Total
      CommitStats.Additions CommitStats.Deletions].
    by apply (Hprovider (Commit.SHA c)).
Qed.

Lemma ListCommits_stats_from_provider_witness :
  Forall (fun c => statsConsistent (Commit.Stats c))
    [Commit.mk "abc123" "" (Author.mk "" "" "") 0 (CommitStats.mk 10 5 15)].
Proof.
  apply (ListCommits_stats_from_provider 1 (statsProvider 10 5 15)
           "owner" "repo1" "main" 0 1 _ None eq_refl).
  intros sha detailed [= <-]. reflexivity.
Defined.

(** ** Aggregation *)

Lemma foldl_bind {A B C} (f : A -> C -> A) (g : B -> list C) (l : list B) a :
  foldl f a (l ≫= g) = foldl (fun a x => foldl f a (g x)) a l.
Proof.
  revert a. induction l as [|x l IH]; intros a; [done|].
  csimpl. by rewrite foldl_app, IH.
Qed.

Lemma foldl_pointwise {A B} (f g : A -> B -> A) (l : list B) a :
  (forall a x, f a x = g a x) -> foldl f a l = foldl g a l.
Proof.
  intros Hfg. revert a. induction l as [|x l IH]; intros a; [done|].
  cbn [foldl]. by rewrite Hfg, IH.
Qed.

(** [generateSummary] is the fold of [addCommit] along the traversal. *)
Lemma generateSummary_traversal repos :
  generateSummary repos = foldl addEntry ∅ (traversal repos).
Proof.
  unfold generateSummary, traversal. rewrite foldl_bind.
  apply foldl_pointwise. intros s repo.
  unfold addRepository. rewrite foldl_bind.
  apply foldl_pointwise. intros s' branch.
  unfold addBranch. rewrite foldl_bind.
  apply foldl_pointwise. done.
Qed.

Lemma sumOver_empty field : sumOver field ∅ = 0%Z.
Proof. unfold sumOver. apply map_fold_empty. Qed.

Lemma sumOver_insert_fresh field (R : gmap string RepositoryStats.t) f x :
  R !! f = None ->
  sumOver field (<[f := x]> R) = int_add (sumOver field R) (field x).
Proof.
  intros Hf. unfold sumOver.
  rewrite map_fold_insert_L; [done| |done].
  intros. apply int_add_swap.
Qed.

(** Raising the entry of one repository by [delta] raises the sum by
    [delta]; a missing entry counts as zero. *)
Lemma sumOver_bump field (R : gmap string RepositoryStats.t) f x delta :
  field RepositoryStats.zero = 0%Z ->
  field x = int_add (field (default RepositoryStats.zero (R !! f))) delta ->
  sumOver field (<[f := x]> R) = int_add (sumOver field R) delta.
Proof.
  intros Hzero Hx. destruct (R !! f) as [old|] eqn:Hf; simpl in Hx.
  - rewrite <-(insert_delete_eq R f x).
    rewrite sumOver_insert_fresh by apply lookup_delete_eq.
    rewrite <-(insert_delete_id R f old Hf) at 2.
    rewrite sumOver_insert_fresh by apply lookup_delete_eq.
    by rewrite Hx, int_add_assoc.
  - rewrite sumOver_insert_fresh by done. rewrite Hx, Hzero.
    unfold int_add. rewrite wrap_idemp_r. f_equal; lia.
Qed.

Lemma addCommit_balanced fullName summary commit :
  map_Forall (fun _ stats => balanced stats) summary ->
  map_Forall (fun _ stats => balanced stats) (addCommit fullName summary commit).
Proof.
  intros Hall. unfold addCommit. apply map_Forall_insert_2; [|done].
  set (stats := match summary !! getAuthorKey (Commit.Author commit) with
                | Some stats => stats
                | None => newContributor (Commit.Author commit)
                end).
  assert (Hstats : balanced stats).
  { subst stats. destruct (summary !! _) as [stats|] eqn:Hk.
    - by apply (Hall _ _ Hk).
    - unfold balanced, newContributor. simpl. by rewrite !sumOver_empty. }
  destruct Hstats as (Hc & Ha & Hd).
  unfold balanced. cbn [ContributorStats.TotalCommits ContributorStats.TotalAdditions
    ContributorStats.TotalDeletions ContributorStats.Repositories].
  split; [|split].
  - rewrite (sumOver_bump _ _ _ _ 1%Z); [by rewrite Hc|done|done].
  - rewrite (sumOver_bump _ _ _ _ (CommitStats.Additions (Commit.Stats commit)));
      [by rewrite Ha|done|done].
  - rewrite (sumOver_bump _ _ _ _ (CommitStats.Deletions (Commit.Stats commit)));
      [by rewrite Hd|done|done].
Qed.

Lemma foldl_addEntry_balanced l summary :
  map_Forall (fun _ stats => balanced stats) summary ->
  map_Forall (fun _ stats => balanced stats) (foldl addEntry summary l).
Proof.
  revert summary. induction l as [|x l IH]; intros summary Hall; [done|].
  cbn [foldl]. apply IH. by apply addCommit_balanced.
Qed.

(** C1. In every summary [generateSummary] returns, every entry has its
    total of commits equal to the sum of the commits of its per-repository
    entries, and likewise its total additions and its total deletions. *)
Theorem generateSummary_balanced (repos : list Repository.t) (key : string)
    (stats : ContributorStats.t) :
  generateSummary repos !! key = Some stats ->
  ContributorStats.TotalCommits stats =
    sumOver RepositoryStats.Commits (ContributorStats.Repositories stats)
  ∧ ContributorStats.TotalAdditions stats =
    sumOver RepositoryStats.Additions (ContributorStats.Repositories stats)
  ∧ ContributorStats.TotalDeletions stats =
    sumOver RepositoryStats.Deletions (ContributorStats.Repositories stats).
Proof.
  rewrite generateSummary_traversal. intros Hkey.
  apply (foldl_addEntry_balanced (traversal repos) ∅ (map_Forall_empty _) _ _ Hkey).
Qed.

Lemma generateSummary_balanced_witness :
  balanced (ContributorStats.mk "John Doe" "john@example.com" "johndoe" 2 30 8
              {[ "owner/repo1"%string := RepositoryStats.mk 2 30 8 ]}).
Proof.
  apply (generateSummary_balanced [repo1] "johndoe"). vm_compute. reflexivity.
Defined.

(** *** The numbers do not depend on the order *)

Lemma foldl_Permutation {A B} (f : A -> B -> A) (l l' : list B) :
  (forall a x y, f (f a x) y = f (f a y) x) ->
  l ≡ₚ l' -> forall a, foldl f a l = foldl f a l'.
Proof.
  intros Hf Hperm. induction Hperm as [|x l l' _ IH|x y l|l l' l'' _ IH1 _ IH2];
    intros a; cbn [foldl].
  - done.
  - apply IH.
  - by rewrite Hf.
  - by rewrite IH1, IH2.
Qed.

Lemma bumpRepo_comm c c' repoStats :
  bumpRepo c (bumpRepo c' repoStats) = bumpRepo c' (bumpRepo c repoStats).
Proof.
  unfold bumpRepo. cbn [RepositoryStats.Commits RepositoryStats.Additions
    RepositoryStats.Deletions]. f_equal; apply int_add_swap.
Qed.

Lemma bump_comm x y t : bump x (bump y t) = bump y (bump x t).
Proof.
  destruct t as [[[tc ta] td] R]. unfold bump. cbn [fst snd].
  f_equal; [f_equal; [f_equal|]; apply int_add_swap|].
  destruct (decide (x.1 = y.1)) as [Heq|Hne].
  - rewrite Heq, !lookup_insert_eq, !insert_insert_eq. simpl.
    by rewrite bumpRepo_comm.
  - rewrite !lookup_insert_ne by done.
    by rewrite insert_insert_ne.
Qed.

Lemma addTotals_comm m x y :
  addTotals (addTotals m x) y = addTotals (addTotals m y) x.
Proof.
  unfold addTotals. destruct (decide (entryKey x = entryKey y)) as [Heq|Hne].
  - rewrite Heq, !lookup_insert_eq, !insert_insert_eq. simpl.
    by rewrite bump_comm.
  - rewrite !lookup_insert_ne by done.
    by rewrite insert_insert_ne.
Qed.

Lemma totals_addEntry summary x :
  totals <$> addEntry summary x = addTotals (totals <$> summary) x.
Proof.
  unfold addEntry, addCommit, addTotals, entryKey.
  rewrite fmap_insert, lookup_fmap. f_equal.
  by destruct (summary !! getAuthorKey (Commit.Author x.2)).
Qed.

Lemma seed_addEntry summary x :
  seed <$> addEntry summary x = addSeed (seed <$> summary) x.
Proof.
  unfold addEntry, addCommit, addSeed, entryKey.
  rewrite fmap_insert, lookup_fmap. f_equal.
  destruct (summary !! getAuthorKey (Commit.Author x.2)); [done|].
  by destruct (Commit.Author x.2).
Qed.

Lemma totals_foldl summary l :
  totals <$> foldl addEntry summary l = foldl addTotals (totals <$> summary) l.
Proof.
  revert summary. induction l as [|x l IH]; intros summary; [done|].
  cbn [foldl]. by rewrite IH, totals_addEntry.
Qed.

Lemma seed_foldl summary l :
  seed <$> foldl addEntry summary l = foldl addSeed (seed <$> summary) l.
Proof.
  revert summary. induction l as [|x l IH]; intros summary; [done|].
  cbn [foldl]. by rewrite IH, seed_addEntry.
Qed.

(** A seeded author was there before or is the author of a visited commit
    with that key. *)
Lemma foldl_addSeed_lookup l m key author :
  foldl addSeed m l !! key = Some author ->
  m !! key = Some author
  ∨ exists x, x ∈ l ∧ entryKey x = key ∧ Commit.Author x.2 = author.
Proof.
  revert m. induction l as [|x l IH]; intros m; cbn [foldl]; [by left|].
  intros Hlook. apply IH in Hlook as [Hlook|(y & Hy & Hkey & Hauthor)].
  - unfold addSeed in Hlook.
    destruct (decide (entryKey x = key)) as [Heq|Hne].
    + rewrite Heq, lookup_insert_eq in Hlook.
      destruct (m !! key) as [a|]; [by left|].
      right. exists x. split; [left|]. split; [done|]. by injection Hlook.
    + rewrite lookup_insert_ne in Hlook by done. by left.
  - right. exists y. split; [by right|done].
Qed.

Lemma stats_seed_totals stats stats' :
  seed stats = seed stats' -> totals stats = totals stats' -> stats = stats'.
Proof.
  destruct stats, stats'. unfold seed, totals. simpl.
  intros [= -> -> ->] [= -> -> -> ->]. done.
Qed.

(** C2, as stated, fails: two commits under one key with different names,
    visited in the two orders, give two different summaries. *)
Lemma generateSummary_order_dependent :
  traversal [shared [commit_alice; commit_bob]]
    ≡ₚ traversal [shared [commit_bob; commit_alice]]
  ∧ generateSummary [shared [commit_alice; commit_bob]]
    ≠ generateSummary [shared [commit_bob; commit_alice]].
Proof.
  split.
  - apply perm_swap.
  - intros Heq.
    apply (f_equal (fun summary =>
             ContributorStats.Name <$> summary !! "x"%string)) in Heq.
    vm_compute in Heq. discriminate.
Qed.

(** C2, as the code has it. When two lists of repositories hold the same
    commits under the same full names, in any order of repositories,
    branches and commits, their summaries have the same keys and, under each
    key, the same totals and the same per-repository statistics. The seeded
    name, email and login are those of the commit visited first, so the two
    summaries are identical whenever the commits that share a key carry the
    same author record. *)
Theorem generateSummary_order (repos repos' : list Repository.t) :
  traversal repos ≡ₚ traversal repos' ->
  totals <$> generateSummary repos = totals <$> generateSummary repos'
  ∧ (sameAuthors (traversal repos) ->
     generateSummary repos = generateSummary repos').
Proof.
  intros Hperm. rewrite !generateSummary_traversal.
  assert (Htotals : totals <$> foldl addEntry ∅ (traversal repos)
                    = totals <$> foldl addEntry ∅ (traversal repos')).
  { rewrite !totals_foldl.
    apply foldl_Permutation; [apply addTotals_comm|done]. }
  split; [done|]. intros Hsame. apply map_eq. intros key.
  pose proof (f_equal (fun m => m !! key) Htotals) as Hk. cbn beta in Hk.
  rewrite !lookup_fmap in Hk.
  destruct (foldl addEntry ∅ (traversal repos) !! key) as [stats|] eqn:Hl;
    destruct (foldl addEntry ∅ (traversal repos') !! key) as [stats'|] eqn:Hr;
    try discriminate; [|done].
  f_equal. apply stats_seed_totals; [|simpl in Hk; congruence].
  assert (Hseed : forall l st,
            foldl addEntry ∅ l !! key = Some st ->
            exists x, x ∈ l ∧ entryKey x = key ∧ Commit.Author x.2 = seed st).
  { intros l st Hst.
    assert (Hs : (seed <$> foldl addEntry ∅ l) !! key = Some (seed st))
      by (by rewrite lookup_fmap, Hst).
    rewrite seed_foldl, fmap_empty in Hs.
    apply foldl_addSeed_lookup in Hs as [Hs|Hs]; [|done].
    by rewrite lookup_empty in Hs. }
  destruct (Hseed _ _ Hl) as (x & Hx & Hkx & <-).
  destruct (Hseed _ _ Hr) as (y & Hy & Hky & <-).
  apply Hsame; [done| |congruence].
  by rewrite Hperm.
Qed.

Lemma generateSummary_order_witness :
  totals <$> generateSummary [shared [commit_alice; commit_bob]]
  = totals <$> generateSummary [shared [commit_bob; commit_alice]]
  ∧ generateSummary [shared [commit_abc123; commit_def456]]
    = generateSummary [shared [commit_def456; commit_abc123]].
Proof.
  split.
  - apply (generateSummary_order [shared [commit_alice; commit_bob]]
             [shared [commit_bob; commit_alice]]). apply perm_swap.
  - apply (generateSummary_order [shared [commit_abc123; commit_def456]]
             [shared [commit_def456; commit_abc123]]); [apply perm_swap|].
    intros x y Hx Hy _.
    assert (Hjohn : forall z,
              z ∈ traversal [shared [commit_abc123; commit_def456]] ->
              Commit.Author z.2 = johndoe).
    { intros z Hz. vm_compute in Hz.
      apply elem_of_cons in Hz as [->|Hz]; [done|].
      apply list_elem_of_singleton in Hz as ->. done. }
    by rewrite (Hjohn x Hx), (Hjohn y Hy).
Defined.

(** ** The worker pool *)

Lemma sum_list_insert {A} (f : A -> nat) (l : list A) i x y :
  l !! i = Some x ->
  sum_list (f <$> <[i := y]> l) + f x = sum_list (f <$> l) + f y.
Proof.
  revert i. induction l as [|z l IH]; intros [|i] Hi; try done.
  - injection Hi as ->. simpl. lia.
  - simpl in Hi. specialize (IH i Hi). csimpl in *. lia.
Qed.

Lemma sum_list_lookup {A} (f : A -> nat) (l : list A) i x :
  l !! i = Some x -> f x <= sum_list (f <$> l).
Proof.
  revert i. induction l as [|z l IH]; intros [|i] Hi; try done.
  - injection Hi as ->. simpl. lia.
  - simpl in Hi. specialize (IH i Hi). csimpl in *. lia.
Qed.

Lemma sum_list_pos {A} (f : A -> nat) (l : list A) :
  0 < sum_list (f <$> l) -> exists i x, l !! i = Some x ∧ 0 < f x.
Proof.
  induction l as [|z l IH]; csimpl; [lia|]. intros Hpos.
  destruct (decide (0 < f z)) as [Hz|Hz].
  - by exists 0, z.
  - destruct IH as (i & x & Hi & Hx); [lia|]. by exists (S i), x.
Qed.

Lemma holding_afterProcess repo outcome : holding (afterProcess repo outcome) = 1.
Proof. unfold afterProcess. by destruct outcome.2. Qed.

Lemma running_afterProcess repo outcome : running (afterProcess repo outcome) = 1.
Proof. unfold afterProcess. by destruct outcome.2. Qed.

Lemma workerFuel_afterProcess repo outcome :
  workerFuel (afterProcess repo outcome) = 4.
Proof. unfold afterProcess. by destruct outcome.2. Qed.

Lemma afterProcess_not_done repo outcome : afterProcess repo outcome ≠ WDone.
Proof. unfold afterProcess. by destruct outcome.2. Qed.

Lemma inv_initial repos : inv (length repos) (initial repos).
Proof.
  unfold initial. constructor; simpl.
  - done.
  - rewrite fmap_replicate, sum_list_replicate. simpl. lia.
  - rewrite fmap_replicate, sum_list_replicate. simpl. lia.
  - apply length_replicate.
  - done.
  - intros i Hi. apply lookup_replicate in Hi as [Hi _]. done.
  - done.
  - done.
  - done.
Qed.

Arguments afterProcess : simpl never.

Ltac worker_update Hi new :=
  let Hh := fresh "Hholding" in
  let Hr := fresh "Hrunning" in
  pose proof (sum_list_insert holding _ _ _ new Hi) as Hh;
  pose proof (sum_list_insert running _ _ _ new Hi) as Hr;
  pose proof (sum_list_lookup running _ _ _ Hi);
  try rewrite holding_afterProcess in Hh;
  try rewrite running_afterProcess in Hr;
  simpl in Hh, Hr.

Ltac still_done Hdone :=
  let j := fresh "j" in
  let Hj := fresh "Hj" in
  intros j Hj;
  apply list_lookup_insert_Some in Hj as [(_ & Hj & _)|[_ Hj]];
  [first [discriminate Hj | by (exfalso; eapply afterProcess_not_done) | idtac]
  | by apply (Hdone j)].

Ltac closer_case :=
  match goal with
  | Hcl : match closerPc ?s with _ => _ end |- _ =>
      destruct (closerPc s); simpl in *; intuition (first [congruence | lia])
  end.

Ltac arith Hcount :=
  rewrite ?length_app, ?length_insert; simpl in *;
  repeat match goal with
         | H : ?l = _ :: _ |- _ => rewrite H in Hcount
         end;
  simpl in *; lia.

Lemma inv_step n since until s s' :
  inv n s -> step n since until s s' -> inv n s'.
Proof.
  intros [Hp Hcount Hwg Hlen Hfeed Hdone Hcl Hrn Hen] Hstep.
  destruct Hstep as
    [ s repo rest Hnp Hsend Hcap | s Hnp Hsend Hopen
    | s i repo rest Hnp Hi Hchan | s i Hnp Hi Hchan Hclosed
    | s i repo client Hnp Hi
    | s i err Hnp Hi Hopen Hcap | s i err Hnp Hi Hclosed
    | s i processedRepo Hnp Hi Hopen Hcap | s i processedRepo Hnp Hi Hclosed
    | s Hnp Hpc Hzero | s Hnp Hpc
    | s repo rest Hnp Hvar Hchan | s Hnp Hvar Hchan Hclosed
    | s err rest Hnp Hvar Hchan | s Hnp Hvar Hchan Hclosed ].
  - (* feed *)
    constructor; simpl; try done; try (arith Hcount).
    + intros Hc. specialize (Hfeed Hc). congruence.
    + intros j Hj. destruct (Hdone j Hj) as [Hc _].
      specialize (Hfeed Hc). congruence.
  - (* the work queue is closed *)
    constructor; simpl; try done; try (arith Hcount).
    intros j Hj. by destruct (Hdone j Hj).
  - (* a worker receives *)
    worker_update Hi (WProcess repo).
    constructor; simpl; try done; try (arith Hcount).
    intros j Hj.
    apply list_lookup_insert_Some in Hj as [(_ & Hj & _)|[_ Hj]];
      [discriminate|].
    destruct (Hdone j Hj) as [_ Hc]. congruence.
  - (* a worker returns *)
    worker_update Hi WDone.
    constructor; simpl; try done; try (arith Hcount).
    closer_case.
  - (* a worker processes *)
    worker_update Hi (afterProcess repo (processRepository client repo since until).2).
    constructor; simpl; try done; try (arith Hcount).
    still_done Hdone.
  - (* a worker sends an error *)
    worker_update Hi WReceive.
    constructor; simpl; try done; try (arith Hcount).
    + still_done Hdone.
    + intros Hn. destruct (Hen Hn). congruence.
  - (* a send on the closed error channel does not happen *)
    worker_update Hi WReceive. exfalso. closer_case.
  - (* a worker sends a result *)
    worker_update Hi WReceive.
    constructor; simpl; try done; try (arith Hcount).
    + still_done Hdone.
    + intros Hn. destruct (Hrn Hn). congruence.
  - (* a send on the closed result channel does not happen *)
    worker_update Hi WReceive. exfalso. closer_case.
  - (* the result channel is closed *)
    rewrite Hpc in Hcl. destruct Hcl as [Hr He].
    destruct (resultsNil s) eqn:Hnil; [destruct (Hrn eq_refl); congruence|].
    rewrite Hr. simpl.
    constructor; simpl; try done; try (arith Hcount).
    all: intros Hn; congruence.
  - (* the error channel is closed *)
    rewrite Hpc in Hcl. destruct Hcl as (Hz & Hr & He).
    destruct (errorsNil s) eqn:Hnil; [destruct (Hen eq_refl); congruence|].
    rewrite He. simpl.
    constructor; simpl; try done; try (arith Hcount).
    intros Hn; congruence.
  - (* a result is collected *)
    constructor; simpl; try done; try (arith Hcount).
    intros Hn. congruence.
  - (* the results are drained *)
    constructor; simpl; try done; try (arith Hcount).
  - (* an error is collected *)
    constructor; simpl; try done; try (arith Hcount).
    intros Hn. congruence.
  - (* the errors are drained *)
    constructor; simpl; try done; try (arith Hcount).
Qed.

Lemma reachable_inv repos since until s :
  reachable repos since until s -> inv (length repos) s.
Proof.
  unfold reachable. revert s. apply rtc_ind_r.
  - apply inv_initial.
  - intros s s' _ Hstep Hinv. by apply (inv_step _ _ _ _ _ Hinv Hstep).
Qed.

Lemma holding_le_running (l : list worker) :
  sum_list (holding <$> l) <= sum_list (running <$> l).
Proof.
  induction l as [|w l IH]; csimpl; [lia|]. destruct w; simpl; lia.
Qed.

(** Once the collecting loop has ended, every repository has been
    collected. *)
Lemma inv_finished n s :
  inv n s -> finished s = true ->
  length (processedRepos s) + length (errors s) = n.
Proof.
  intros [Hp Hcount Hwg Hlen Hfeed Hdone Hcl Hrn Hen] Hfin.
  unfold finished in Hfin. apply andb_true_iff in Hfin as [Hr He].
  destruct (Hrn Hr) as [Hrc Hrchan]. destruct (Hen He) as [Hec Hechan].
  assert (Hzero : wg s = 0) by (destruct (closerPc s); intuition congruence).
  pose proof (holding_le_running (workers s)) as Hhold.
  rewrite Hrchan, Hechan in Hcount. simpl in Hcount.
  destruct (workers s) as [|w ws] eqn:Hws.
  - unfold maxWorkers in Hlen. cbn [length] in Hlen. simpl in Hcount. lia.
  - assert (Hw : w = WDone).
    { rewrite Hwg in Hzero. csimpl in Hzero. destruct w; simpl in Hzero; done || lia. }
    subst w. destruct (Hdone 0) as [Hclosed Hchan]; [done|].
    rewrite (Hfeed Hclosed), Hchan in Hcount.
    csimpl in Hcount. csimpl in Hhold. csimpl in Hwg. lia.
Qed.

(** As long as the collecting loop runs, some goroutine can move. *)
Lemma inv_progress n since until s :
  inv n s -> finished s = false -> exists s', step n since until s s'.
Proof.
  intros [Hp Hcount Hwg Hlen Hfeed Hdone Hcl Hrn Hen] Hfin.
  destruct (resultsNil s) eqn:Hrnil.
  - (* the results are drained: the errors are still awaited *)
    assert (Henil : errorsNil s = false)
      by (unfold finished in Hfin; rewrite Hrnil in Hfin; done).
    destruct (Hrn eq_refl) as [Hrc _].
    destruct (errorsChan s) as [|err rest] eqn:Hchan.
    + destruct (errorsClosed s) eqn:Hec.
      * eexists. by apply step_errors_drained.
      * assert (Hpc : closerPc s = CCloseErrors)
          by (destruct (closerPc s); intuition congruence).
        eexists. by apply step_close_errors.
    + eexists. by eapply step_collect_error.
  - destruct (resultsChan s) as [|repo rest] eqn:Hchan;
      [|eexists; by eapply step_collect_result].
    destruct (resultsClosed s) eqn:Hrc;
      [eexists; by apply step_results_drained|].
    assert (Hpc : closerPc s = CWait)
      by (destruct (closerPc s); intuition congruence).
    rewrite Hpc in Hcl. destruct Hcl as [_ Hec].
    destruct (wg s) as [|k] eqn:Hk; [eexists; by apply step_close_results|].
    destruct (sum_list_pos running (workers s)) as (i & w & Hi & Hw); [lia|].
    pose proof (sum_list_lookup holding _ _ _ Hi) as Hheld.
    destruct w; simpl in Hw, Hheld; [| | | |lia].
    + (* the worker waits for work *)
      destruct (reposChan s) as [|repo rest] eqn:Hq;
        [|eexists; by eapply step_receive].
      destruct (reposClosed s) eqn:Hclosed; [eexists; by eapply step_return|].
      destruct (toSend s) as [|repo rest] eqn:Hsend;
        [eexists; by apply step_feed_close|].
      eexists. eapply step_feed; [done|done|]. rewrite Hq. simpl in *. lia.
    + eexists. by eapply (step_process _ _ _ _ _ _ noCommitsClient).
    + eexists. eapply step_send_error; [done|done|done|]. simpl in *. lia.
    + eexists. eapply step_send_result; [done|done|done|].
      rewrite Hchan. simpl in *. lia.
Qed.

(** Every step uses up some of the steps left. *)
Lemma step_stepsLeft n since until s s' :
  step n since until s s' -> stepsLeft s' < stepsLeft s.
Proof.
  intros Hstep. unfold stepsLeft at 2.
  destruct Hstep as
    [ s repo rest Hnp Hsend Hcap | s Hnp Hsend Hopen
    | s i repo rest Hnp Hi Hchan | s i Hnp Hi Hchan Hclosed
    | s i repo client Hnp Hi
    | s i err Hnp Hi Hopen Hcap | s i err Hnp Hi Hclosed
    | s i processedRepo Hnp Hi Hopen Hcap | s i processedRepo Hnp Hi Hclosed
    | s Hnp Hpc Hzero | s Hnp Hpc
    | s repo rest Hnp Hvar Hchan | s Hnp Hvar Hchan Hclosed
    | s err rest Hnp Hvar Hchan | s Hnp Hvar Hchan Hclosed ];
    rewrite Hnp;
    try match goal with
        | Hi : workers _ !! _ = Some _ |- context [<[_ := ?w]> _] =>
            pose proof (sum_list_insert workerFuel _ _ _ w Hi) as Hfuel;
            try rewrite workerFuel_afterProcess in Hfuel; simpl in Hfuel
        end;
    try match goal with
        | |- context [if ?b || ?c then _ else _] => destruct (b || c)
        end;
    unfold stepsLeft; simpl; rewrite ?Hnp, ?length_app; simpl;
    try rewrite Hsend; try rewrite Hchan; try rewrite Hopen;
    try rewrite Hvar; try rewrite Hpc; simpl; try lia.
Qed.


Ltac pool_step rule :=
  eapply rtc_l; [rule; first [reflexivity | simpl; lia] | vm_compute].


(** ** The summary, read off the traversal *)

Lemma addEntry_lookup summary x key :
  addEntry summary x !! key =
  if decide (entryKey x = key) then entryStep (summary !! key) x
  else summary !! key.
Proof.
  unfold addEntry, addCommit, entryStep, updateStats, bumpRepo, entryKey.
  destruct (decide (getAuthorKey (Commit.Author x.2) = key)) as [<-|Hne].
  - rewrite lookup_insert_eq. done.
  - by rewrite lookup_insert_ne.
Qed.

(** The entry of a key depends on the commits of that key alone. *)
Lemma foldl_addEntry_lookup l summary key :
  foldl addEntry summary l !! key =
  foldl entryStep (summary !! key) (commitsOf key l).
Proof.
  revert summary. induction l as [|x l IH]; intros summary; [done|].
  cbn [foldl]. rewrite IH, addEntry_lookup. unfold commitsOf.
  destruct (decide (entryKey x = key)) as [Hk|Hk].
  - by rewrite filter_cons_True.
  - by rewrite filter_cons_False.
Qed.

Lemma sumZ_snoc field l x :
  sumZ field (l ++ [x]) = (sumZ field l + field (Commit.Stats x.2))%Z.
Proof.
  unfold sumZ. induction l as [|y l IH]; simpl; [lia|]. rewrite IH. lia.
Qed.

Lemma tally_nil : tally [] = RepositoryStats.zero.
Proof. reflexivity. Qed.

Lemma tally_snoc l x : tally (l ++ [x]) = bumpRepo x.2 (tally l).
Proof.
  unfold tally, bumpRepo, int_incr, int_add.
  cbn [RepositoryStats.Commits RepositoryStats.Additions RepositoryStats.Deletions].
  rewrite length_app, !sumZ_snoc, !wrap_idemp_l. f_equal. f_equal. simpl. lia.
Qed.

Lemma repoTally_snoc fullName l x :
  repoTally fullName (l ++ [x]) =
  if decide (x.1 = fullName)
  then Some (bumpRepo x.2 (default RepositoryStats.zero (repoTally fullName l)))
  else repoTally fullName l.
Proof.
  unfold repoTally, commitsIn. rewrite filter_app.
  destruct (decide (x.1 = fullName)) as [Hf|Hf].
  - rewrite (filter_cons_True _ x []) by done. rewrite filter_nil.
    destruct (filter (fun y => y.1 = fullName) l) as [|y ys].
    + change (Some (tally ([] ++ [x])) = Some (bumpRepo x.2 RepositoryStats.zero)).
      by rewrite tally_snoc.
    + change (Some (tally ((y :: ys) ++ [x])) = Some (bumpRepo x.2 (tally (y :: ys)))).
      by rewrite tally_snoc.
  - rewrite (filter_cons_False _ x []) by done. by rewrite filter_nil, app_nil_r.
Qed.

Lemma foldl_entryStep_readsOff l :
  match l with
  | [] => foldl entryStep None l = None
  | _ :: _ => exists stats, foldl entryStep None l = Some stats ∧ readsOff l stats
  end.
Proof.
  induction l as [|x l IH] using rev_ind; [done|].
  assert (Hgoal : exists stats,
            foldl entryStep None (l ++ [x]) = Some stats
            ∧ readsOff (l ++ [x]) stats).
  { rewrite foldl_snoc. unfold entryStep at 1.
    eexists. split; [reflexivity|].
    unfold readsOff. rewrite tally_snoc.
    destruct l as [|y l].
    - rewrite tally_nil.
      split; [cbn; by destruct (Commit.Author x.2)|].
      split; [reflexivity|]. split; [reflexivity|]. split; [reflexivity|].
      intros fullName. rewrite repoTally_snoc.
      cbn [foldl updateStats newContributor ContributorStats.Repositories].
      destruct (decide (x.1 = fullName)) as [<-|Hf].
      + by rewrite lookup_insert_eq.
      + by rewrite lookup_insert_ne.
    - destruct IH as (stats & -> & Hseed & Hc & Ha & Hd & Hrepos).
      unfold updateStats, seed in *.
      cbn [ContributorStats.TotalCommits ContributorStats.TotalAdditions
           ContributorStats.TotalDeletions ContributorStats.Repositories
           ContributorStats.Name ContributorStats.Email ContributorStats.Login].
      unfold bumpRepo at 1 2 3.
      cbn [RepositoryStats.Commits RepositoryStats.Additions
           RepositoryStats.Deletions].
      rewrite Hc, Ha, Hd.
      split; [done|]. split; [done|]. split; [done|]. split; [done|].
      intros fullName. rewrite repoTally_snoc.
      destruct (decide (x.1 = fullName)) as [<-|Hf].
      + by rewrite lookup_insert_eq, Hrepos.
      + by rewrite lookup_insert_ne, Hrepos. }
  by destruct (l ++ [x]) eqn:Heq; [destruct l; discriminate|].
Qed.

Lemma generateSummary_lookup repos key :
  generateSummary repos !! key =
  foldl entryStep None (commitsOf key (traversal repos)).
Proof.
  by rewrite generateSummary_traversal, foldl_addEntry_lookup, lookup_empty.
Qed.

Lemma generateSummary_readsOff repos key stats :
  generateSummary repos !! key = Some stats ->
  readsOff (commitsOf key (traversal repos)) stats.
Proof.
  rewrite generateSummary_lookup.
  pose proof (foldl_entryStep_readsOff (commitsOf key (traversal repos))) as H.
  destruct (commitsOf key (traversal repos)); [congruence|].
  destruct H as (stats' & -> & Hreads). by intros [= <-].
Qed.

Lemma wrap_in_int z : fits_int z -> wrap z = z.
Proof.
  unfold fits_int, wrap, int_half, int_modulus, int_bits. simpl. intros Hz.
  rewrite Z.mod_small; lia.
Qed.

(** X1. The keys of the summary are exactly the author keys of the commits
    visited: an author with no commit has no entry, and the summary of
    repositories without commits is empty. *)
Theorem generateSummary_keys (repos : list Repository.t) :
  dom (generateSummary repos) = list_to_set (entryKey <$> traversal repos).
Proof.
  apply set_eq. intros key.
  rewrite elem_of_dom, elem_of_list_to_set, list_elem_of_fmap.
  rewrite generateSummary_lookup.
  pose proof (foldl_entryStep_readsOff (commitsOf key (traversal repos))) as Hfold.
  destruct (commitsOf key (traversal repos)) as [|x xs] eqn:Hof.
  - rewrite Hfold. split; [by intros [? ?]|].
    intros (x & -> & Hx).
    assert (Hin : x ∈ commitsOf (entryKey x) (traversal repos))
      by (by apply list_elem_of_filter).
    rewrite Hof in Hin. by apply elem_of_nil in Hin.
  - destruct Hfold as (stats & -> & _). split; [|by eexists].
    intros _. exists x.
    assert (Hin : x ∈ commitsOf key (traversal repos)) by (rewrite Hof; left).
    apply list_elem_of_filter in Hin as [Hk Hin]. by split.
Qed.

(** X2. The totals of an entry are the number of commits visited under its
    key and the sums of their added and deleted lines, each wrapped to
    [int]; a commit reached through two branches counts twice. *)
Theorem generateSummary_totals (repos : list Repository.t) (key : string)
    (stats : ContributorStats.t) :
  generateSummary repos !! key = Some stats ->
  ContributorStats.TotalCommits stats =
    wrap (Z.of_nat (length (commitsOf key (traversal repos))))
  ∧ ContributorStats.TotalAdditions stats =
    wrap (sumZ CommitStats.Additions (commitsOf key (traversal repos)))
  ∧ ContributorStats.TotalDeletions stats =
    wrap (sumZ CommitStats.Deletions (commitsOf key (traversal repos))).
Proof.
  intros Hkey. apply generateSummary_readsOff in Hkey.
  destruct Hkey as (_ & Hc & Ha & Hd & _). done.
Qed.

Lemma generateSummary_totals_witness :
  (2 = wrap (Z.of_nat (length (commitsOf "johndoe" (traversal [repo1])))))%Z
  ∧ (30 = wrap (sumZ CommitStats.Additions (commitsOf "johndoe" (traversal [repo1]))))%Z
  ∧ (8 = wrap (sumZ CommitStats.Deletions (commitsOf "johndoe" (traversal [repo1]))))%Z.
Proof.
  apply (generateSummary_totals [repo1] "johndoe"
           (ContributorStats.mk "John Doe" "john@example.com" "johndoe" 2 30 8
              {[ "owner/repo1"%string := RepositoryStats.mk 2 30 8 ]})).
  vm_compute. reflexivity.
Defined.

(** X3. Under each repository full name, an entry holds the tally of the
    commits of its key visited in repositories of that name, and it has no
    entry for a repository where the author has no commit. *)
Theorem generateSummary_repositories (repos : list Repository.t)
    (key fullName : string) (stats : ContributorStats.t) :
  generateSummary repos !! key = Some stats ->
  ContributorStats.Repositories stats !! fullName =
  repoTally fullName (commitsOf key (traversal repos)).
Proof.
  intros Hkey. apply generateSummary_readsOff in Hkey.
  destruct Hkey as (_ & _ & _ & _ & Hrepos). apply Hrepos.
Qed.

Lemma generateSummary_repositories_witness :
  Some (RepositoryStats.mk 2 30 8)
  = repoTally "owner/repo1" (commitsOf "johndoe" (traversal [repo1])).
Proof.
  assert (Hkey : generateSummary [repo1] !! "johndoe"%string =
            Some (ContributorStats.mk "John Doe" "john@example.com" "johndoe" 2 30 8
                    {[ "owner/repo1"%string := RepositoryStats.mk 2 30 8 ]}))
    by (vm_compute; reflexivity).
  exact (generateSummary_repositories [repo1] "johndoe" "owner/repo1" _ Hkey).
Defined.

(** X4. The name, email and login of an entry are those of the first commit
    visited under its key; later commits under the key never change them. *)
Theorem generateSummary_seed (repos : list Repository.t) (key : string)
    (stats : ContributorStats.t) :
  generateSummary repos !! key = Some stats ->
  exists x rest,
    commitsOf key (traversal repos) = x :: rest
    ∧ ContributorStats.Name stats = Author.Name (Commit.Author x.2)
    ∧ ContributorStats.Email stats = Author.Email (Commit.Author x.2)
    ∧ ContributorStats.Login stats = Author.Login (Commit.Author x.2).
Proof.
  intros Hkey. apply generateSummary_readsOff in Hkey.
  destruct Hkey as (Hseed & _).
  destruct (commitsOf key (traversal repos)) as [|x rest]; [discriminate|].
  exists x, rest. split; [done|].
  simpl in Hseed. injection Hseed as Hseed. rewrite <-Hseed.
  by destruct stats.
Qed.

Lemma generateSummary_seed_witness :
  exists x rest,
    commitsOf "x" (traversal [shared [commit_bob; commit_alice]]) = x :: rest
    ∧ "Bob"%string = Author.Name (Commit.Author x.2)
    ∧ ""%string = Author.Email (Commit.Author x.2)
    ∧ "x"%string = Author.Login (Commit.Author x.2).
Proof.
  apply (generateSummary_seed [shared [commit_bob; commit_alice]] "x"
           (ContributorStats.mk "Bob" "" "x" 2 3 0
              {[ "owner/repo1"%string := RepositoryStats.mk 2 3 0 ]})).
  vm_compute. reflexivity.
Defined.

(** X5. As long as the number of commits of a key and the sums of their
    added and deleted lines fit in an [int], the totals of its entry are
    these exact numbers: nothing wraps around. *)
Theorem generateSummary_totals_exact (repos : list Repository.t) (key : string)
    (stats : ContributorStats.t) :
  generateSummary repos !! key = Some stats ->
  fits_int (Z.of_nat (length (commitsOf key (traversal repos)))) ->
  fits_int (sumZ CommitStats.Additions (commitsOf key (traversal repos))) ->
  fits_int (sumZ CommitStats.Deletions (commitsOf key (traversal repos))) ->
  ContributorStats.TotalCommits stats =
    Z.of_nat (length (commitsOf key (traversal repos)))
  ∧ ContributorStats.TotalAdditions stats =
    sumZ CommitStats.Additions (commitsOf key (traversal repos))
  ∧ ContributorStats.TotalDeletions stats =
    sumZ CommitStats.Deletions (commitsOf key (traversal repos)).
Proof.
  intros Hkey Hc Ha Hd. apply generateSummary_readsOff in Hkey.
  destruct Hkey as (_ & -> & -> & -> & _).
  unfold tally. simpl. by rewrite !wrap_in_int.
Qed.

Lemma generateSummary_totals_exact_witness :
  (2 = Z.of_nat (length (commitsOf "johndoe" (traversal [repo1]))))%Z
  ∧ (30 = sumZ CommitStats.Additions (commitsOf "johndoe" (traversal [repo1])))%Z
  ∧ (8 = sumZ CommitStats.Deletions (commitsOf "johndoe" (traversal [repo1])))%Z.
Proof.
  apply (generateSummary_totals_exact [repo1] "johndoe"
           (ContributorStats.mk "John Doe" "john@example.com" "johndoe" 2 30 8
              {[ "owner/repo1"%string := RepositoryStats.mk 2 30 8 ]}));
    vm_compute; first [reflexivity | split; congruence].
Defined.

(** ** More on the branch selection *)

Lemma firstNamed_None name branches :
  firstNamed name branches = None <-> name ∉ Branch.Name <$> branches.
Proof.
  unfold firstNamed. induction branches as [|b bs IH]; simpl.
  - split; [intros _; apply not_elem_of_nil|done].
  - rewrite not_elem_of_cons.
    destruct (String.eqb_spec (Branch.Name b) name) as [Hb|Hb].
    + split; [done|]. intros [Hne _]. congruence.
    + rewrite IH. split; [intros ?; split; [congruence|done]|tauto].
Qed.

Lemma firstNamed_is_Some name branches :
  is_Some (firstNamed name branches) <-> name ∈ Branch.Name <$> branches.
Proof.
  rewrite <-not_eq_None_Some, firstNamed_None.
  split; [apply dec_stable|tauto].
Qed.

(** Where names are distinct, the first branch of a name is the only one. *)
Lemma firstNamed_unique name branches b :
  NoDup (Branch.Name <$> branches) -> b ∈ branches -> Branch.Name b = name ->
  firstNamed name branches = Some b.
Proof.
  unfold firstNamed. induction branches as [|b' bs IH]; intros Hnd Hin Hname.
  - by apply elem_of_nil in Hin.
  - csimpl in Hnd. apply NoDup_cons in Hnd as [Hfresh Hnd]. simpl.
    apply elem_of_cons in Hin as [->|Hin].
    + rewrite Hname, String.eqb_refl. done.
    + destruct (String.eqb_spec (Branch.Name b') name) as [Hb|Hb]; [|by apply IH].
      exfalso. apply Hfresh. rewrite Hb, <-Hname. by apply list_elem_of_fmap_2.
Qed.

Lemma omap_ext_elem {A B} (f g : A -> option B) (l : list A) :
  (forall x, x ∈ l -> f x = g x) -> omap f l = omap g l.
Proof.
  induction l as [|x l IH]; intros Hfg; [done|]. csimpl.
  rewrite (Hfg x) by left. rewrite IH; [done|].
  intros y Hy. apply Hfg. by right.
Qed.

Lemma select_closed branches defaultBranch :
  selectBranchesToProcess branches defaultBranch =
  option_list (firstNamed defaultBranch branches)
  ++ omap (fun name => firstNamed name branches)
          (filter (fun name => name ≠ defaultBranch) importantBranches).
Proof. by rewrite selectBranchesToProcess_select_policy, select_policy_closed. Qed.

(** The selection depends on the input only through the first branch of
    the default name and of each priority name. *)
Lemma select_ext branches branches' defaultBranch :
  (forall name, name = defaultBranch ∨ name ∈ importantBranches ->
                firstNamed name branches = firstNamed name branches') ->
  selectBranchesToProcess branches defaultBranch =
  selectBranchesToProcess branches' defaultBranch.
Proof.
  intros Hsame. rewrite !select_closed. f_equal.
  - f_equal. apply Hsame. by left.
  - apply omap_ext_elem. intros name Hname.
    apply list_elem_of_filter in Hname as [_ Hname]. apply Hsame. by right.
Qed.

Lemma select_members branches defaultBranch b :
  b ∈ selectBranchesToProcess branches defaultBranch <->
  firstNamed (Branch.Name b) branches = Some b
  ∧ (Branch.Name b = defaultBranch ∨ Branch.Name b ∈ importantBranches).
Proof.
  rewrite select_closed, elem_of_app, list_elem_of_omap. split.
  - intros [Hd|(name & Hname & Hf)].
    + destruct (firstNamed defaultBranch branches) as [b'|] eqn:Hf;
        [|by apply elem_of_nil in Hd].
      apply list_elem_of_singleton in Hd as ->.
      apply firstNamed_Some in Hf as Hb. destruct Hb as [_ Hb].
      rewrite Hb. split; [done|by left].
    + apply list_elem_of_filter in Hname as [_ Hname].
      apply firstNamed_Some in Hf as Hb. destruct Hb as [_ Hb].
      rewrite Hb. split; [done|by right].
  - intros [Hf Hname].
    destruct (decide (Branch.Name b = defaultBranch)) as [Hd|Hd].
    + left. rewrite <-Hd, Hf. by left.
    + right. exists (Branch.Name b). split; [|done].
      apply list_elem_of_filter. split; [done|]. by destruct Hname.
Qed.

Lemma firstNamed_select branches defaultBranch name :
  name = defaultBranch ∨ name ∈ importantBranches ->
  firstNamed name (selectBranchesToProcess branches defaultBranch) =
  firstNamed name branches.
Proof.
  intros Hname.
  destruct (firstNamed name (selectBranchesToProcess branches defaultBranch))
    as [b|] eqn:Hsel.
  - apply firstNamed_Some in Hsel as [Hin Hb].
    apply select_members in Hin as [Hf _]. by rewrite <-Hb.
  - destruct (firstNamed name branches) as [b|] eqn:Hf; [|done].
    exfalso. apply firstNamed_None in Hsel. apply Hsel.
    apply firstNamed_Some in Hf as Hb. destruct Hb as [_ Hb].
    rewrite <-Hb. apply list_elem_of_fmap_2. apply select_members.
    rewrite Hb. done.
Qed.

(** X6. Selecting is idempotent: selecting again among the selected
    branches, with the same default, changes nothing. *)
Theorem selectBranchesToProcess_idempotent (branches : list Branch.t)
    (defaultBranch : string) :
  selectBranchesToProcess (selectBranchesToProcess branches defaultBranch)
    defaultBranch
  = selectBranchesToProcess branches defaultBranch.
Proof.
  apply select_ext. intros name Hname. by apply firstNamed_select.
Qed.

Lemma names_select branches defaultBranch :
  Branch.Name <$> selectBranchesToProcess branches defaultBranch =
  (if firstNamed defaultBranch branches is Some _ then [defaultBranch] else [])
  ++ filter (fun name => is_Some (firstNamed name branches))
       (filter (fun name => name ≠ defaultBranch) importantBranches).
Proof.
  by rewrite select_closed, fmap_app, names_option_list_firstNamed,
    names_omap_firstNamed.
Qed.

(** X7. The names selected, and their order, do not depend on the order of
    the input; where the input names are pairwise distinct, as the names of
    the branches of one repository are, neither do the branches selected. *)
Theorem selectBranchesToProcess_permutation (branches branches' : list Branch.t)
    (defaultBranch : string) :
  branches ≡ₚ branches' ->
  Branch.Name <$> selectBranchesToProcess branches defaultBranch
  = Branch.Name <$> selectBranchesToProcess branches' defaultBranch
  ∧ (NoDup (Branch.Name <$> branches) ->
     selectBranchesToProcess branches defaultBranch
     = selectBranchesToProcess branches' defaultBranch).
Proof.
  intros Hperm.
  assert (Hsome : forall name,
            is_Some (firstNamed name branches)
            <-> is_Some (firstNamed name branches')).
  { intros name. rewrite !firstNamed_is_Some. by rewrite Hperm. }
  split.
  - rewrite !names_select. f_equal.
    + specialize (Hsome defaultBranch).
      destruct (firstNamed defaultBranch branches) as [b|],
        (firstNamed defaultBranch branches') as [b'|]; try done.
      * destruct Hsome as [Hsome _]. by destruct Hsome.
      * destruct Hsome as [_ Hsome]. by destruct Hsome.
    + apply list_filter_iff. intros name. apply Hsome.
  - intros Hnd. apply select_ext. intros name _.
    destruct (firstNamed name branches) as [b|] eqn:Hf.
    + apply firstNamed_Some in Hf as [Hin Hb]. symmetry.
      apply firstNamed_unique; [by rewrite <-Hperm|by rewrite <-Hperm|done].
    + symmetry. apply firstNamed_None. rewrite <-Hperm.
      by apply firstNamed_None.
Qed.

Lemma selectBranchesToProcess_permutation_witness :
  Branch.Name <$> selectBranchesToProcess
                    [named "develop" "2e"; named "main" "1f"] "main"
  = Branch.Name <$> selectBranchesToProcess
                      [named "main" "1f"; named "develop" "2e"] "main"
  ∧ selectBranchesToProcess [named "develop" "2e"; named "main" "1f"] "main"
    = selectBranchesToProcess [named "main" "1f"; named "develop" "2e"] "main".
Proof.
  destruct (selectBranchesToProcess_permutation
              [named "develop" "2e"; named "main" "1f"]
              [named "main" "1f"; named "develop" "2e"] "main"
              (perm_swap _ _ _)) as [Hnames Hsame].
  split; [exact Hnames|]. apply Hsame.
  apply (bool_decide_unpack _). by vm_compute.
Defined.

(** X8. The selection is empty exactly when no input branch carries the
    default name or a name of the priority list; in particular it is empty
    on an empty branch list. *)
Theorem selectBranchesToProcess_empty (branches : list Branch.t)
    (defaultBranch : string) :
  selectBranchesToProcess branches defaultBranch = [] <->
  Forall (fun b => Branch.Name b ≠ defaultBranch
                   ∧ Branch.Name b ∉ importantBranches) branches.
Proof.
  rewrite Forall_forall. split.
  - intros Hempty b Hb.
    assert (Hout : forall name,
              name = defaultBranch ∨ name ∈ importantBranches ->
              name ∉ Branch.Name <$> branches).
    { intros name Hname. apply firstNamed_None.
      destruct (firstNamed name branches) as [b'|] eqn:Hf; [|done].
      exfalso. apply firstNamed_Some in Hf as Hb'. destruct Hb' as [_ Hb'].
      assert (Hin : b' ∈ selectBranchesToProcess branches defaultBranch)
        by (apply select_members; by rewrite Hb').
      rewrite Hempty in Hin. by apply elem_of_nil in Hin. }
    split.
    + intros Hd. apply (Hout (Branch.Name b)); [by left|].
      by apply list_elem_of_fmap_2.
    + intros Hi. apply (Hout (Branch.Name b)); [by right|].
      by apply list_elem_of_fmap_2.
  - intros Hnone.
    destruct (selectBranchesToProcess branches defaultBranch) as [|b out] eqn:Hsel;
      [done|].
    exfalso.
    assert (Hin : b ∈ selectBranchesToProcess branches defaultBranch)
      by (rewrite Hsel; left).
    apply select_members in Hin as [Hf Hname].
    apply firstNamed_Some in Hf as [Hb _].
    destruct (Hnone b Hb) as [Hd Hi]. by destruct Hname.
Qed.

(** ** More on the repository processor *)

Lemma select_length branches defaultBranch :
  length (selectBranchesToProcess branches defaultBranch) <= 7.
Proof.
  rewrite select_closed, length_app.
  assert (length (option_list (firstNamed defaultBranch branches)) <= 1)
    by (destruct (firstNamed defaultBranch branches); simpl; lia).
  pose proof (omap_length_le (fun name => firstNamed name branches)
                (filter (fun name => name ≠ defaultBranch) importantBranches)).
  pose proof (length_filter (fun name => name ≠ defaultBranch) importantBranches).
  change (length importantBranches) with 6 in *. lia.
Qed.

Lemma select_names_NoDup branches defaultBranch :
  NoDup (Branch.Name <$> selectBranchesToProcess branches defaultBranch).
Proof.
  rewrite names_select. apply NoDup_app. split; [|split].
  - destruct (firstNamed defaultBranch branches); [apply NoDup_singleton|constructor].
  - intros k Hk Hin.
    apply list_elem_of_filter in Hin as [_ Hin].
    apply list_elem_of_filter in Hin as [Hne _].
    destruct (firstNamed defaultBranch branches);
      [apply list_elem_of_singleton in Hk; done | by apply elem_of_nil in Hk].
  - do 2 apply NoDup_filter. apply importantBranches_NoDup.
Qed.

Lemma fetched_name client owner repoName since until b b' :
  fetched client owner repoName since until b = Some b' ->
  Branch.Name b' = Branch.Name b ∧ Branch.SHA b' = Branch.SHA b.
Proof.
  unfold fetched.
  destruct (ListCommits client owner repoName (Branch.Name b) since until)
    as [commits [err|]]; [done|]. by intros [= <-].
Qed.

Lemma fetched_names_NoDup client owner repoName since until
    (selected : list Branch.t) :
  NoDup (Branch.Name <$> selected) ->
  NoDup (Branch.Name <$> omap (fetched client owner repoName since until) selected).
Proof.
  induction selected as [|b selected IH]; [done|]. csimpl.
  intros Hnd. apply NoDup_cons in Hnd as [Hfresh Hnd].
  destruct (fetched client owner repoName since until b) as [b'|] eqn:Hb;
    [|by apply IH].
  csimpl. apply NoDup_cons. split; [|by apply IH].
  apply fetched_name in Hb as [Hb _]. rewrite Hb. intros Hin. apply Hfresh.
  apply list_elem_of_fmap in Hin as (c' & -> & Hin).
  apply list_elem_of_omap in Hin as (c & Hc & Hf).
  apply fetched_name in Hf as [-> _]. by apply list_elem_of_fmap_2.
Qed.

Lemma calls_branchEvents_length client fullName owner repoName since until
    (selected : list Branch.t) :
  length (calls (selected ≫= branchEvents client fullName owner repoName since until))
  = length selected.
Proof.
  induction selected as [|b selected IH]; [done|]. csimpl.
  rewrite calls_app, length_app, IH. unfold branchEvents.
  by destruct (ListCommits client owner repoName (Branch.Name b) since until)
    as [commits [err|]].
Qed.

(** The two ways a run of [processRepository] can go. *)
Lemma processRepository_cases client repo since until :
  processRepository client repo since until =
    ([LogProcessing (Repository.FullName repo)],
     (repo, Some (Errorf "invalid repository name format: %s"
                    [Repository.FullName repo])))
  ∨ exists owner repoName,
      strings_Split (Repository.FullName repo) "/" = [owner; repoName].
Proof.
  destruct (decide (length (strings_Split (Repository.FullName repo) "/") = 2))
    as [Hlen|Hlen].
  - right.
    destruct (strings_Split (Repository.FullName repo) "/")
      as [|owner [|repoName [|]]]; try done. by exists owner, repoName.
  - left. by apply processRepository_malformed.
Qed.

(** X9. When the branch listing fails, [processRepository] returns the
    repository as it came and the provider's error as it came, after that
    one call: no commit is requested. *)
Theorem processRepository_listing_failure (client : GitHubClient)
    (repo : Repository.t) (since until : Z) (owner repoName : string)
    (branches : list Branch.t) (err : error) :
  strings_Split (Repository.FullName repo) "/" = [owner; repoName] ->
  ListBranches client owner repoName = (branches, Some err) ->
  processRepository client repo since until =
  ([LogProcessing (Repository.FullName repo); CallListBranches owner repoName],
   (repo, Some err)).
Proof.
  intros Hsplit Hbranches.
  by rewrite (processRepository_two_parts _ _ _ _ _ _ Hsplit), Hbranches.
Qed.

Lemma processRepository_listing_failure_witness :
  processRepository noBranchesClient (listed "owner/repo1") 0 1 =
  ([LogProcessing "owner/repo1"; CallListBranches "owner" "repo1"],
   (listed "owner/repo1", Some (ProviderError "404"))).
Proof.
  apply (processRepository_listing_failure noBranchesClient (listed "owner/repo1")
           0 1 "owner" "repo1" [] (ProviderError "404")); reflexivity.
Defined.

(** X10. Whatever the provider answers, the repository returned by
    [processRepository] has the name, full name, URL and default branch of
    the repository given. *)
Theorem processRepository_identity (client : GitHubClient) (repo : Repository.t)
    (since until : Z) :
  Repository.Name (processRepository client repo since until).2.1
    = Repository.Name repo
  ∧ Repository.FullName (processRepository client repo since until).2.1
    = Repository.FullName repo
  ∧ Repository.URL (processRepository client repo since until).2.1
    = Repository.URL repo
  ∧ Repository.DefaultBranch (processRepository client repo since until).2.1
    = Repository.DefaultBranch repo.
Proof.
  destruct (processRepository_cases client repo since until)
    as [->|(owner & repoName & Hsplit)]; [done|].
  rewrite (processRepository_two_parts _ _ _ _ _ _ Hsplit).
  by destruct (ListBranches client owner repoName) as [branches [err|]].
Qed.

(** X11. One run of [processRepository] makes at most eight calls on the
    provider (the branch listing and at most seven commit listings); a
    repository returned without error has at most seven branches, with
    pairwise distinct names; a repository returned with an error is the
    repository given. *)
Theorem processRepository_bounded (client : GitHubClient) (repo : Repository.t)
    (since until : Z) :
  length (calls (processRepository client repo since until).1) <= 8
  ∧ ((processRepository client repo since until).2.2 = None ->
     length (Repository.Branches (processRepository client repo since until).2.1) <= 7
     ∧ NoDup (Branch.Name <$>
                Repository.Branches (processRepository client repo since until).2.1))
  ∧ ((processRepository client repo since until).2.2 ≠ None ->
     (processRepository client repo since until).2.1 = repo).
Proof.
  destruct (processRepository_cases client repo since until)
    as [->|(owner & repoName & Hsplit)].
  - cbn. split; [lia|]. split; [done|done].
  - rewrite (processRepository_two_parts _ _ _ _ _ _ Hsplit).
    destruct (ListBranches client owner repoName) as [branches [err|]].
    + cbn. split; [lia|]. split; [done|done].
    + cbn [fst snd].
      pose proof (select_length branches (Repository.DefaultBranch repo)) as Hlen.
      pose proof (select_names_NoDup branches (Repository.DefaultBranch repo)) as Hnd.
      revert Hlen Hnd.
      generalize (selectBranchesToProcess branches (Repository.DefaultBranch repo)).
      intros selected Hlen Hnd.
      rewrite calls_app, length_app, calls_branchEvents_length.
      split; [cbn; lia|]. split; [|done]. intros _.
      cbn [withBranches Repository.Branches]. split.
      * pose proof (omap_length_le (fetched client owner repoName since until)
                      selected). lia.
      * by apply fetched_names_NoDup.
Qed.

Lemma processRepository_bounded_witness :
  (length (Repository.Branches
             (processRepository mainOnlyClient (listed "owner/repo1") 0 1).2.1) <= 7
   ∧ NoDup (Branch.Name <$>
              Repository.Branches
                (processRepository mainOnlyClient (listed "owner/repo1") 0 1).2.1))
  ∧ (processRepository noBranchesClient (listed "owner/repo1") 0 1).2.1
    = listed "owner/repo1".
Proof.
  split.
  - apply (proj1 (proj2 (processRepository_bounded mainOnlyClient
                           (listed "owner/repo1") 0 1))).
    vm_compute. reflexivity.
  - apply (proj2 (proj2 (processRepository_bounded noBranchesClient
                           (listed "owner/repo1") 0 1))).
    vm_compute. discriminate.
Defined.

(** ** More on ListCommits *)

Lemma listPages_more_fuel fuel fuel' gc owner repo branch opt allCommits r :
  client.listPages fuel gc owner repo branch opt allCommits = Some r ->
  fuel <= fuel' ->
  client.listPages fuel' gc owner repo branch opt allCommits = Some r.
Proof.
  revert fuel' opt allCommits.
  induction fuel as [|fuel IH]; intros fuel' opt allCommits; [done|].
  intros Hrun Hle. destruct fuel' as [|fuel']; [lia|].
  simpl in *.
  destruct (github.Repositories_ListCommits gc owner repo opt)
    as [[commits resp]|err]; [|done].
  destruct (github.NextPage resp =? 0)%Z; [done|].
  apply IH; [done|lia].
Qed.




(** Fuel only decides whether the model of [ListCommits] finishes:
    a run that finishes gives the same result with any more fuel. *)
Theorem ListCommits_more_fuel (fuel fuel' : nat) (gc : github.Client)
    (owner repo branch : string) (since until : Z)
    (result : list Commit.t * option error) :
  client.ListCommits fuel gc owner repo branch since until = Some result ->
  fuel <= fuel' ->
  client.ListCommits fuel' gc owner repo branch since until = Some result.
Proof.
  unfold client.ListCommits. intros Hrun Hle.
  destruct (client.listPages fuel _ _ _ _ _ _) as [r|] eqn:Hpages; [|done].
  by rewrite (listPages_more_fuel _ _ _ _ _ _ _ _ _ Hpages Hle).
Qed.

Lemma ListCommits_more_fuel_witness :
  client.ListCommits 5 (statsProvider 10 5 15) "owner" "repo1" "main" 0 1
  = Some ([Commit.mk "abc123" "" (Author.mk "" "" "") 0 (CommitStats.mk 10 5 15)],
          None).
Proof.
  apply (ListCommits_more_fuel 1 5 (statsProvider 10 5 15)
           "owner" "repo1" "main" 0 1); [reflexivity|lia].
Defined.

Lemma convertCommit_SHA gc owner repo commit c :
  client.convertCommit gc owner repo commit = Some c ->
  Commit.SHA c = github.GetSHA commit.
Proof.
  unfold client.convertCommit.
  destruct (github.Repositories_GetCommit _ _ _ _); [|done]. by intros [= <-].
Qed.

Lemma convertCommit_is_Some gc owner repo commit :
  is_Some (client.convertCommit gc owner repo commit) <->
  is_Some (match github.Repositories_GetCommit gc owner repo (github.GetSHA commit)
           with inl d => Some d | inr _ => None end).
Proof.
  unfold client.convertCommit.
  destruct (github.Repositories_GetCommit _ _ _ _); split; intros [? ?]; done.
Qed.

Lemma omap_convertCommit_SHA gc owner repo (allCommits : list github.RepositoryCommit) :
  Commit.SHA <$> omap (client.convertCommit gc owner repo) allCommits =
  github.GetSHA <$> filter (detailed gc owner repo) allCommits.
Proof.
  induction allCommits as [|commit allCommits IH]; [done|]. csimpl.
  destruct (client.convertCommit gc owner repo commit) as [c|] eqn:Hc.
  - rewrite filter_cons_True
      by (apply convertCommit_is_Some; by rewrite Hc).
    csimpl. by rewrite IH, (convertCommit_SHA _ _ _ _ _ Hc).
  - rewrite filter_cons_False; [done|].
    intros Hd. apply convertCommit_is_Some in Hd. rewrite Hc in Hd.
    by destruct Hd.
Qed.

(** X13. A successful [ListCommits] returns, in listing order, one commit
    for every listed commit whose detailed fetch succeeded; the commits
    whose detailed fetch failed are left out without an error. *)
Theorem ListCommits_skips_undetailed (fuel : nat) (gc : github.Client)
    (owner repo branch : string) (since until : Z) (commits : list Commit.t) :
  client.ListCommits fuel gc owner repo branch since until = Some (commits, None) ->
  exists allCommits,
    client.listPages fuel gc owner repo branch
      {| github.OptSHA := branch; github.Since := since; github.Until := until;
         github.Page := 0; github.PerPage := 100 |} []
    = Some (inl allCommits)
    ∧ Commit.SHA <$> commits =
      github.GetSHA <$> filter (detailed gc owner repo) allCommits
    ∧ length commits <= length allCommits.
Proof.
  unfold client.ListCommits.
  destruct (client.listPages _ _ _ _ _ _ _) as [[allCommits|e]|]; [|done|done].
  intros [= <-]. exists allCommits. split; [done|]. split.
  - apply omap_convertCommit_SHA.
  - apply omap_length_le.
Qed.

Lemma ListCommits_skips_undetailed_witness :
  exists allCommits,
    client.listPages 1 (statsProvider 10 5 15) "owner" "repo1" "main"
      {| github.OptSHA := "main"; github.Since := 0; github.Until := 1;
         github.Page := 0; github.PerPage := 100 |} []
    = Some (inl allCommits)
    ∧ Commit.SHA <$>
        [Commit.mk "abc123" "" (Author.mk "" "" "") 0 (CommitStats.mk 10 5 15)]
      = github.GetSHA <$>
          filter (detailed (statsProvider 10 5 15) "owner" "repo1") allCommits
    ∧ 1 <= length allCommits.
Proof.
  apply (ListCommits_skips_undetailed 1 (statsProvider 10 5 15)
           "owner" "repo1" "main" 0 1). reflexivity.
Defined.

(** X14. A commit that GitHub links to no user account has an empty login,
    so it is counted under the email of its git author when that is not
    empty, and under the git author's name otherwise. *)
Theorem convertCommit_unlinked_key (gc : github.Client) (owner repo : string)
    (commit : github.RepositoryCommit) (c : Commit.t) :
  client.convertCommit gc owner repo commit = Some c ->
  github.RCAuthor commit = None ->
  Author.Login (Commit.Author c) = ""%string
  ∧ getAuthorKey (Commit.Author c) =
    if String.eqb (github.GetAuthorEmail commit) ""
    then github.GetAuthorName commit
    else github.GetAuthorEmail commit.
Proof.
  unfold client.convertCommit. intros Hc Hnone. rewrite Hnone in Hc.
  destruct (github.Repositories_GetCommit _ _ _ _); [|done].
  injection Hc as <-. split; [done|].
  unfold getAuthorKey. simpl.
  by destruct (String.eqb (github.GetAuthorEmail commit) "").
Qed.

Lemma convertCommit_unlinked_key_witness :
  Author.Login (Author.mk "" "" "") = ""%string
  ∧ getAuthorKey (Author.mk "" "" "") =
    if String.eqb (github.GetAuthorEmail (statsCommit 10 5 15)) ""
    then github.GetAuthorName (statsCommit 10 5 15)
    else github.GetAuthorEmail (statsCommit 10 5 15).
Proof.
  apply (convertCommit_unlinked_key (statsProvider 10 5 15) "owner" "repo1"
           (statsCommit 10 5 15)
           (Commit.mk "abc123" "" (Author.mk "" "" "") 0 (CommitStats.mk 10 5 15)));
    reflexivity.
Defined.

(** ** Pagination and the listings *)

Lemma listPages_paged pages owner repo branch opt allCommits fuel (i : nat) :
  github.Page opt = Z.of_nat i ->
  i + fuel = length pages -> 0 < fuel ->
  client.listPages fuel (pagedProvider pages) owner repo branch opt allCommits
  = Some (inl (allCommits ++ concat (drop i pages))).
Proof.
  revert i opt allCommits.
  induction fuel as [|fuel IH]; intros i opt allCommits Hpage Hlen Hpos; [lia|].
  simpl. rewrite Hpage, Nat2Z.id.
  destruct (pages !! i) as [page|] eqn:Hi;
    [|apply lookup_ge_None in Hi; lia].
  rewrite (drop_S _ _ _ Hi). simpl.
  destruct (decide (i + 1 < length pages)) as [Hmore|Hlast].
  - replace (Z.of_nat i + 1 =? 0)%Z with false by lia.
    rewrite (IH (S i)); [by rewrite <-app_assoc|simpl; lia|lia|lia].
  - simpl. rewrite drop_ge by lia. simpl. by rewrite app_nil_r.
Qed.

(** X15. Against a provider that serves a list of pages, naming after each
    page the next one and after the last page none, [ListCommits] with fuel
    for one request per page fetches every page once and returns the
    commits of all pages in order. *)
Theorem ListCommits_all_pages (pages : list (list github.RepositoryCommit))
    (owner repo branch : string) (since until : Z) :
  pages ≠ [] ->
  exists commits,
    client.ListCommits (length pages) (pagedProvider pages) owner repo branch
      since until = Some (commits, None)
    ∧ Commit.SHA <$> commits = github.GetSHA <$> concat pages.
Proof.
  intros Hpages. unfold client.ListCommits.
  rewrite (listPages_paged pages _ _ _ _ _ _ 0);
    [|done|done|destruct pages; [done|simpl; lia]].
  eexists. split; [reflexivity|].
  rewrite drop_0, app_nil_l.
  induction (concat pages) as [|commit l IH]; [done|]. csimpl. by rewrite IH.
Qed.

Lemma ListCommits_all_pages_witness :
  exists commits,
    client.ListCommits 2
      (pagedProvider [[statsCommit 1 1 2]; [statsCommit 2 0 2; statsCommit 0 3 3]])
      "owner" "repo1" "main" 0 1 = Some (commits, None)
    ∧ Commit.SHA <$> commits =
      github.GetSHA <$> concat [[statsCommit 1 1 2];
                                [statsCommit 2 0 2; statsCommit 0 3 3]].
Proof.
  apply (ListCommits_all_pages
           [[statsCommit 1 1 2]; [statsCommit 2 0 2; statsCommit 0 3 3]]
           "owner" "repo1" "main" 0 1). discriminate.
Defined.

Lemma convertRepositories_names (repos : list github_listing.Repository) :
  Repository.FullName <$> listing.convertRepositories repos =
  github_listing.GetFullName <$>
    filter (fun repo => github_listing.GetArchived repo = false) repos.
Proof.
  unfold listing.convertRepositories.
  induction repos as [|repo repos IH]; [done|]. csimpl.
  destruct (github_listing.GetArchived repo) eqn:Harchived.
  - by rewrite filter_cons_False by (by rewrite Harchived).
  - rewrite filter_cons_True by done. csimpl. by rewrite IH.
Qed.

Lemma convertRepositories_no_branches (repos : list github_listing.Repository) :
  Forall (fun repo => Repository.Branches repo = [])
    (listing.convertRepositories repos).
Proof.
  unfold listing.convertRepositories.
  induction repos as [|repo repos IH]; [constructor|]. csimpl.
  destruct (github_listing.GetArchived repo); [done|]. by constructor.
Qed.

(** X16. [convertRepositories] leaves out the archived repositories and
    keeps the others in order, each without branches. *)
Theorem convertRepositories_skips_archived
    (repos : list github_listing.Repository) :
  Repository.FullName <$> listing.convertRepositories repos =
    github_listing.GetFullName <$>
      filter (fun repo => github_listing.GetArchived repo = false) repos
  ∧ Forall (fun repo => Repository.Branches repo = [])
      (listing.convertRepositories repos).
Proof.
  split; [apply convertRepositories_names|apply convertRepositories_no_branches].
Qed.







(** ** More on the worker pool *)

Lemma provenance_initial repos since until :
  provenance repos since until (initial repos).
Proof.
  constructor; simpl; try done.
  - by apply Forall_forall.
  - apply Forall_forall. intros w Hw. by apply elem_of_replicate_inv in Hw as ->.
Qed.

Lemma afterProcess_provenance repos since until repo client :
  repo ∈ repos ->
  workerProvenance repos since until
    (afterProcess repo (processRepository client repo since until).2).
Proof.
  intros Hrepo. unfold afterProcess.
  destruct (processRepository client repo since until).2 as [r' [err|]] eqn:Hrun;
    simpl.
  - exists repo, client, err. by rewrite Hrun.
  - exists repo, client. by rewrite Hrun.
Qed.

Lemma provenance_step repos since until s s' :
  provenance repos since until s ->
  step (length repos) since until s s' ->
  provenance repos since until s'.
Proof.
  intros [Hsend Hchan Hworkers Hres Herr Hproc Herrs] Hstep.
  destruct Hstep as
    [ s repo rest Hnp Hts Hcap | s Hnp Hts Hopen
    | s i repo rest Hnp Hi Hq | s i Hnp Hi Hq Hclosed
    | s i repo client Hnp Hi
    | s i err Hnp Hi Hopen Hcap | s i err Hnp Hi Hclosed
    | s i processedRepo Hnp Hi Hopen Hcap | s i processedRepo Hnp Hi Hclosed
    | s Hnp Hpc Hzero | s Hnp Hpc
    | s repo rest Hnp Hvar Hq | s Hnp Hvar Hq Hclosed
    | s err rest Hnp Hvar Hq | s Hnp Hvar Hq Hclosed ];
    try (pose proof (Forall_lookup_1 _ _ _ _ Hworkers Hi) as Hw; simpl in Hw);
    repeat match goal with
           | H : ?l = ?x :: ?r, HF : Forall ?P ?l |- _ =>
               lazymatch goal with
               | _ : Forall P r |- _ => fail
               | _ => idtac
               end;
               let H1 := fresh in
               let H2 := fresh in
               assert (P x ∧ Forall P r) as [H1 H2]
                 by (rewrite H in HF; by apply Forall_cons in HF);
               cbn beta in H1
           end;
    try match goal with
        | |- context [if ?b || ?c then _ else _] => destruct (b || c)
        end;
    constructor; simpl;
    first [ done
          | apply Forall_app; split; [done | by constructor]
          | apply Forall_insert;
            [assumption
            | first [exact I | assumption | by apply afterProcess_provenance]] ].
Qed.

Lemma reachable_provenance repos since until s :
  reachable repos since until s -> provenance repos since until s.
Proof.
  unfold reachable. revert s. apply rtc_ind_r.
  - apply provenance_initial.
  - intros s s' _ Hstep Hprov. by apply (provenance_step _ _ _ _ _ Hprov Hstep).
Qed.

Lemma processRepository_ok_name client repo since until processedRepo :
  (processRepository client repo since until).2 = (processedRepo, None) ->
  Repository.FullName processedRepo = Repository.FullName repo
  ∧ strings_Count (Repository.FullName repo) "/" = 1.
Proof.
  pose proof (strings_Split_length (Repository.FullName repo) "/") as Hlen.
  destruct (processRepository_cases client repo since until)
    as [->|(owner & repoName & Hsplit)]; [done|].
  rewrite Hsplit in Hlen. simpl in Hlen.
  rewrite (processRepository_two_parts _ _ _ _ _ _ Hsplit).
  destruct (ListBranches client owner repoName) as [branches [err|]]; [done|].
  cbn [fst snd]. intros Heq.
  apply (f_equal fst) in Heq. cbn [fst] in Heq. rewrite <-Heq.
  split; [reflexivity|lia].
Qed.

(** X19. Whatever the pool has collected comes from the input: every
    collected repository carries the full name of an input repository, and
    that name has exactly one '/', so a repository with a malformed name is
    never among the successes; every collected failure is the error of an
    input repository wrapped with its full name. *)
Theorem pool_collects_from_input (repos : list Repository.t) (since until : Z)
    (s : state) :
  reachable repos since until s ->
  Forall (fun processedRepo =>
            Repository.FullName processedRepo ∈ Repository.FullName <$> repos
            ∧ strings_Count (Repository.FullName processedRepo) "/" = 1)
         (processedRepos s)
  ∧ Forall (fun err =>
              exists repo cause,
                repo ∈ repos
                ∧ err = ErrorfW "repository %s: %w" [Repository.FullName repo] cause)
           (errors s).
Proof.
  intros Hreach. apply reachable_provenance in Hreach as [_ _ _ _ _ Hproc Herrs].
  split.
  - eapply Forall_impl; [exact Hproc|]. intros r' (repo & client & Hrepo & Hrun).
    apply processRepository_ok_name in Hrun as [Hname Hcount].
    rewrite Hname. split; [by apply list_elem_of_fmap_2|done].
  - eapply Forall_impl; [exact Herrs|].
    intros err (repo & client & cause & Hrepo & _ & ->). by exists repo, cause.
Qed.

Lemma poolEnd_reachable :
  reachable [listed "repo1"; listed "owner/repo1"] 0 1 poolEnd.
Proof.
  unfold reachable. vm_compute.
  pool_step ltac:(eapply step_feed).
  pool_step ltac:(eapply step_feed).
  pool_step ltac:(eapply step_feed_close).
  pool_step ltac:(eapply (step_receive _ _ _ _ 0)).
  pool_step ltac:(eapply (step_receive _ _ _ _ 1)).
  pool_step ltac:(eapply (step_process _ _ _ _ 0 _ mainOnlyClient)).
  pool_step ltac:(eapply (step_process _ _ _ _ 1 _ mainOnlyClient)).
  pool_step ltac:(eapply (step_send_error _ _ _ _ 0)).
  pool_step ltac:(eapply (step_send_result _ _ _ _ 1)).
  pool_step ltac:(eapply (step_return _ _ _ _ 0)).
  pool_step ltac:(eapply (step_return _ _ _ _ 1)).
  pool_step ltac:(eapply step_close_results).
  pool_step ltac:(eapply step_close_errors).
  pool_step ltac:(eapply step_collect_result).
  pool_step ltac:(eapply step_results_drained).
  pool_step ltac:(eapply step_collect_error).
  pool_step ltac:(eapply step_errors_drained).
  apply rtc_refl.
Qed.

Lemma pool_collects_from_input_witness :
  Forall (fun processedRepo =>
            Repository.FullName processedRepo
              ∈ Repository.FullName <$> [listed "repo1"; listed "owner/repo1"]
            ∧ strings_Count (Repository.FullName processedRepo) "/" = 1)
         (processedRepos poolEnd)
  ∧ Forall (fun err =>
              exists repo cause,
                repo ∈ [listed "repo1"; listed "owner/repo1"]
                ∧ err = ErrorfW "repository %s: %w" [Repository.FullName repo] cause)
           (errors poolEnd).
Proof.
  exact (pool_collects_from_input _ 0 1 poolEnd poolEnd_reachable).
Defined.

Lemma poolSending_reachable : reachable [listed "repo1"] 0 1 poolSending.
Proof.
  unfold reachable. vm_compute.
  pool_step ltac:(eapply step_feed).
  pool_step ltac:(eapply (step_receive _ _ _ _ 0)).
  pool_step ltac:(eapply (step_process _ _ _ _ 0 _ mainOnlyClient)).
  apply rtc_refl.
Qed.

(** X20. No goroutine of the pool ever waits on a full buffer or sends on
    a closed channel: in every reachable state a worker that holds a failure
    or a result finds its channel open with room left, and so does the
    feeding goroutine as long as it has a repository to send. *)
Theorem pool_sends_never_block (repos : list Repository.t) (since until : Z)
    (s : state) :
  reachable repos since until s ->
  (forall i err, workers s !! i = Some (WSendError err) ->
     errorsClosed s = false ∧ length (errorsChan s) < length repos)
  ∧ (forall i processedRepo, workers s !! i = Some (WSendResult processedRepo) ->
       resultsClosed s = false ∧ length (resultsChan s) < length repos)
  ∧ (toSend s ≠ [] -> length (reposChan s) < length repos).
Proof.
  intros Hreach.
  apply reachable_inv in Hreach as [Hp Hcount Hwg Hlen Hfeed Hdone Hcl Hrn Hen].
  assert (Hopen : forall i w, workers s !! i = Some w -> holding w = 1 ->
            resultsClosed s = false ∧ errorsClosed s = false
            ∧ 1 <= sum_list (holding <$> workers s)).
  { intros i w Hi Hw.
    pose proof (sum_list_lookup holding _ _ _ Hi) as Hheld.
    pose proof (sum_list_lookup running _ _ _ Hi) as Hrun.
    assert (running w = 1) by (by destruct w).
    destruct (closerPc s); intuition lia. }
  split; [|split].
  - intros i err Hi. destruct (Hopen _ _ Hi eq_refl) as (_ & He & Hheld).
    split; [done|lia].
  - intros i r Hi. destruct (Hopen _ _ Hi eq_refl) as (Hr & _ & Hheld).
    split; [done|lia].
  - intros Hsend. destruct (toSend s); [done|]. simpl in Hcount. lia.
Qed.

Lemma pool_sends_never_block_witness :
  errorsClosed poolSending = false
  ∧ length (errorsChan poolSending) < length [listed "repo1"].
Proof.
  apply (proj1 (pool_sends_never_block [listed "repo1"] 0 1 poolSending
                  poolSending_reachable) 0
           (ErrorfW "repository %s: %w" ["repo1"%string]
              (Errorf "invalid repository name format: %s" ["repo1"%string]))).
  reflexivity.
Defined.

(** X21. The pool runs at most [maxWorkers] workers, so at most ten
    repositories are being processed at any time, however many are given. *)
Theorem pool_bounded_concurrency (repos : list Repository.t) (since until : Z)
    (s : state) :
  reachable repos since until s ->
  length (workers s) <= maxWorkers
  ∧ sum_list (holding <$> workers s) <= maxWorkers
  ∧ wg s <= maxWorkers.
Proof.
  intros Hreach.
  apply reachable_inv in Hreach as [Hp Hcount Hwg Hlen Hfeed Hdone Hcl Hrn Hen].
  pose proof (holding_le_running (workers s)) as Hhold.
  assert (Hrun : sum_list (running <$> workers s) <= length (workers s)).
  { clear. induction (workers s) as [|w ws IH]; csimpl; [lia|].
    destruct w; simpl; lia. }
  unfold maxWorkers in *. lia.
Qed.

Lemma pool_bounded_concurrency_witness :
  length (workers (initial (replicate 12 (listed "owner/repo1")))) <= maxWorkers
  ∧ sum_list (holding <$> workers (initial (replicate 12 (listed "owner/repo1"))))
    <= maxWorkers
  ∧ wg (initial (replicate 12 (listed "owner/repo1"))) <= maxWorkers.
Proof.
  apply (pool_bounded_concurrency (replicate 12 (listed "owner/repo1")) 0 1).
  apply rtc_refl.
Defined.

(** ** Whole runs *)

(** The model of [strings.Split] undoes [strings.Join]: joining the
    parts of a string gives the string back, the parts are one more than
    the separators, and no part holds a separator. *)
Theorem strings_Split_round_trip (s : string) (sep : Ascii.ascii) :
  strings_Join (strings_Split s sep) sep = s
  ∧ length (strings_Split s sep) = S (strings_Count s sep)
  ∧ Forall (fun p => strings_Count p sep = 0) (strings_Split s sep).
Proof.
  split; [apply strings_Split_Join|].
  split; [apply strings_Split_length|apply strings_Split_parts].
Qed.

Lemma inv_completes n since until (k : nat) :
  forall s, stepsLeft s <= k -> inv n s ->
            exists s', rtc (step n since until) s s' ∧ finished s' = true.
Proof.
  induction k as [|k IH]; intros s Hk Hinv.
  - destruct (finished s) eqn:Hfin; [by exists s|].
    destruct (inv_progress n since until s Hinv Hfin) as [s1 Hstep].
    apply step_stepsLeft in Hstep. lia.
  - destruct (finished s) eqn:Hfin; [by exists s|].
    destruct (inv_progress n since until s Hinv Hfin) as [s1 Hstep].
    pose proof (step_stepsLeft _ _ _ _ _ Hstep) as Hless.
    destruct (IH s1) as (s' & Hrun & Hdone);
      [lia|by apply (inv_step _ _ _ _ _ Hinv Hstep)|].
    exists s'. split; [by eapply rtc_l|done].
Qed.

(** X22. From every state the pool can reach, the run can be carried on to
    the end of the collecting loop, and there every repository is accounted
    for: no interleaving leads the goroutines into a deadlock. *)
Theorem pool_completes (repos : list Repository.t) (since until : Z) (s : state) :
  reachable repos since until s ->
  exists s',
    rtc (step (length repos) since until) s s'
    ∧ finished s' = true
    ∧ length (processedRepos s') + length (errors s') = length repos.
Proof.
  intros Hreach. apply reachable_inv in Hreach as Hinv.
  destruct (inv_completes (length repos) since until (stepsLeft s) s)
    as (s' & Hrun & Hdone); [lia|done|].
  exists s'. split; [done|]. split; [done|].
  apply inv_finished; [|done].
  apply (reachable_inv repos since until). unfold reachable in *. by etrans.
Qed.

Lemma pool_completes_witness :
  exists s',
    rtc (step (length [listed "repo1"]) 0 1) poolSending s'
    ∧ finished s' = true
    ∧ length (processedRepos s') + length (errors s') = length [listed "repo1"].
Proof.
  exact (pool_completes [listed "repo1"] 0 1 poolSending poolSending_reachable).
Defined.

(** X23. What [GenerateReport] returns. When the listing failed there is no
    report and the error is the listing error, wrapped. Otherwise there is
    a report and no error: the report has the target and the period given,
    at most as many repositories as were listed, each under the full name
    of a listed repository, and its summary is the summary of exactly the
    repositories it holds. *)
Theorem GenerateReport_result (listResult : list Repository.t * option error)
    (target : string) (since until : Z) (result : option Report.t * option error) :
  GenerateReport_returns listResult target since until result ->
  match listResult.2 with
  | Some err =>
      result = (None, Some (ErrorfW "failed to list repositories: %w" [] err))
  | None =>
      exists report,
        result = (Some report, None)
        ∧ Report.Target report = target
        ∧ Report.Period report = Period.mk since until
        ∧ Report.Summary report = generateSummary (Report.Repositories report)
        ∧ length (Report.Repositories report) <= length listResult.1
        ∧ Forall (fun repo =>
                    Repository.FullName repo ∈ Repository.FullName <$> listResult.1)
                 (Report.Repositories report)
  end.
Proof.
  intros [err Herr|s Hnone Hreach Hfin].
  - by rewrite Herr.
  - rewrite Hnone. eexists. split; [reflexivity|]. simpl.
    split; [done|]. split; [done|]. split; [done|]. split.
    + pose proof (inv_finished _ _ (reachable_inv _ _ _ _ Hreach) Hfin). lia.
    + apply reachable_provenance in Hreach as [_ _ _ _ _ Hproc _].
      eapply Forall_impl; [exact Hproc|].
      intros r' (repo & client & Hrepo & Hrun).
      apply processRepository_ok_name in Hrun as [-> _].
      by apply list_elem_of_fmap_2.
Qed.

Lemma GenerateReport_result_witness :
  exists report,
    (Some (Report.mk "octocat" (Period.mk 0 1) (processedRepos poolEnd)
             (generateSummary (processedRepos poolEnd))), None)
      = (Some report, (None : option error))
    ∧ Report.Target report = "octocat"%string
    ∧ Report.Period report = Period.mk 0 1
    ∧ Report.Summary report = generateSummary (Report.Repositories report)
    ∧ length (Report.Repositories report) <= 2
    ∧ Forall (fun repo =>
                Repository.FullName repo
                  ∈ Repository.FullName <$> [listed "repo1"; listed "owner/repo1"])
             (Report.Repositories report).
Proof.
  exact (GenerateReport_result ([listed "repo1"; listed "owner/repo1"], None)
           "octocat" 0 1 _
           (returns_report ([listed "repo1"; listed "owner/repo1"], None)
              "octocat" 0 1 poolEnd eq_refl poolEnd_reachable eq_refl)).
Defined.
